(** * icloud-photos-sync: album model, hierarchy ordering and session steps

    A shallow embedding of [app/src/lib/photos-library/model/album.ts]
    (class [Album]), of the page-size constant of
    [lib/icloud/icloud-photos/constants.ts], and of the two session steps
    [getTokens] and [setupAccount] of the iCloud class, followed by the
    properties established about them.

    Conventions.
    - A JavaScript string is a [string]: a finite sequence of code units,
      compared unit by unit.
    - A value that may be [null] or [undefined] at run time is a
      [nullable].
    - A plain object used as a dictionary ([AlbumAssets]) is the list of
      its own enumerable properties, in the order in which [Object.keys]
      lists them; its keys are pairwise distinct ([wf_assets]).
    - A recursive method whose recursion is not structural takes a fuel
      argument; [None] means the fuel ran out. *)

From Stdlib Require Import String Ascii NArith ZArith List Lia.
From stdpp Require Import base option list sorting strings gmap.

Import ListNotations.

(* ================================================================== *)
(** ** JavaScript primitives used by the sources *)
(* ================================================================== *)

Module JS.

(** A reference that may be [null] or [undefined]. *)
Inductive nullable (A : Type) : Type :=
| null : nullable A
| undefined : nullable A
| present (a : A) : nullable A.
Arguments null {A}.
Arguments undefined {A}.
Arguments present {A} a.

(** The values an expression [x && b] can have when [x] is an object
    reference, [null] or [undefined] and [b] is a boolean. *)
Inductive value : Type :=
| VNull
| VUndefined
| VBool (b : bool).

(** [ToBoolean] on those values. *)
Definition truthy (v : value) : bool :=
  match v with
  | VBool b => b
  | VNull | VUndefined => false
  end.

Definition falsy (v : value) : bool := negb (truthy v).

(** [x ? x : d] for an object reference [x]: objects are truthy,
    [null] and [undefined] are not. *)
Definition orElse {A : Type} (x : nullable A) (d : A) : A :=
  match x with
  | present a => a
  | null | undefined => d
  end.

(** [x && k x], where [k] yields a boolean. *)
Definition andAlso {A : Type} (x : nullable A) (k : A -> bool) : value :=
  match x with
  | null => VNull
  | undefined => VUndefined
  | present a => VBool (k a)
  end.

(** *** Strings *)

Definition SLASH : ascii := "047"%char.
Definition UNDERSCORE : ascii := "095"%char.
Definition DQUOTE : ascii := "034"%char.
Definition BACKSLASH : ascii := "092"%char.
Definition COMMA : ascii := "044"%char.
Definition LBRACKET : ascii := "091"%char.
Definition RBRACKET : ascii := "093"%char.

(** [s.replaceAll(pat, rep)] for a one-unit pattern and a one-unit
    replacement. *)
Fixpoint replaceAll (pat rep : ascii) (s : string) : string :=
  match s with
  | EmptyString => EmptyString
  | String c s' =>
      String (if Ascii.eqb c pat then rep else c) (replaceAll pat rep s')
  end.

(** [s === t] on strings. *)
Definition strictEq (s t : string) : bool := String.eqb s t.

(** The order of [Array.prototype.sort] without a comparator on an
    array of strings: lexicographic on code units. *)
Definition str_le (s t : string) : Prop := String.leb s t = true.

#[global] Instance str_le_dec (s t : string) : Decision (str_le s t).
Proof. unfold str_le. apply _. Defined.

(** [arr.sort()] on an array of strings. *)
Definition sort (l : list string) : list string := merge_sort str_le l.

(** *** [JSON.stringify] on an array of strings *)

(** Lower-case hexadecimal digit of a number below 16. *)
Definition hexDigit (n : N) : ascii :=
  match n with
  | 0%N => "0" | 1%N => "1" | 2%N => "2" | 3%N => "3"
  | 4%N => "4" | 5%N => "5" | 6%N => "6" | 7%N => "7"
  | 8%N => "8" | 9%N => "9" | 10%N => "a" | 11%N => "b"
  | 12%N => "c" | 13%N => "d" | 14%N => "e" | _ => "f"
  end%char.

(** [UnicodeEscape]: backslash, u and four hexadecimal digits. *)
Definition unicodeEscape (n : N) : string :=
  String BACKSLASH (String "u"%char
    (String (hexDigit (n / 4096 mod 16)) (String (hexDigit (n / 256 mod 16))
    (String (hexDigit (n / 16 mod 16)) (String (hexDigit (n mod 16))
     EmptyString))))).

Definition escapeWith (c : ascii) : string :=
  String BACKSLASH (String c EmptyString).

(** One step of [QuoteJSONString]: the two-unit escapes of the table,
    a unicode escape below SPACE, the unit itself otherwise. *)
Definition quoteJSONChar (c : ascii) : string :=
  let n := N_of_ascii c in
  if (n =? 8)%N then escapeWith "b"%char
  else if (n =? 9)%N then escapeWith "t"%char
  else if (n =? 10)%N then escapeWith "n"%char
  else if (n =? 12)%N then escapeWith "f"%char
  else if (n =? 13)%N then escapeWith "r"%char
  else if (n =? 34)%N then escapeWith DQUOTE
  else if (n =? 92)%N then escapeWith BACKSLASH
  else if (n <? 32)%N then unicodeEscape n
  else String c EmptyString.

Fixpoint quoteJSONBody (s : string) : string :=
  match s with
  | EmptyString => EmptyString
  | String c s' => quoteJSONChar c +:+ quoteJSONBody s'
  end.

Definition quoteJSONString (s : string) : string :=
  String DQUOTE (quoteJSONBody s +:+ String DQUOTE EmptyString).

(** [parts.join(",")]. *)
Fixpoint joinComma (parts : list string) : string :=
  match parts with
  | [] => EmptyString
  | [p] => p
  | p :: rest => p +:+ String COMMA (joinComma rest)
  end.

(** [SerializeJSONArray] without indentation, for string elements. *)
Definition stringify (l : list string) : string :=
  match l with
  | [] => String LBRACKET (String RBRACKET EmptyString)
  | _ => String LBRACKET
           (joinComma (map quoteJSONString l) +:+ String RBRACKET EmptyString)
  end.

(** Value of a hexadecimal digit, and the reader of one quoted unit:
    the inverse of [quoteJSONChar], by which [stringify] is shown to
    lose nothing. *)
Definition hexValue (c : ascii) : N :=
  let n := N_of_ascii c in
  if (n <? 58)%N then (n - 48)%N else (n - 87)%N.

Definition unquoteJSONChar (s : string) : option (ascii * string) :=
  match s with
  | EmptyString => None
  | String c r =>
      if Ascii.eqb c DQUOTE then None
      else if Ascii.eqb c BACKSLASH then
        match r with
        | EmptyString => None
        | String k r' =>
            if Ascii.eqb k "b" then Some ("008"%char, r')
            else if Ascii.eqb k "t" then Some ("009"%char, r')
            else if Ascii.eqb k "n" then Some ("010"%char, r')
            else if Ascii.eqb k "f" then Some ("012"%char, r')
            else if Ascii.eqb k "r" then Some ("013"%char, r')
            else if Ascii.eqb k "u" then
              match r' with
              | String h1 (String h2 (String h3 (String h4 r''))) =>
                  Some (ascii_of_N (hexValue h3 * 16 + hexValue h4), r'')
              | _ => None
              end
            else Some (k, r')
        end
      else Some (c, r)
  end.

(** [arr.find(pred)]: the first element that satisfies [pred]. *)
Definition find {A : Type} (pred : A -> bool) (arr : list A) : option A :=
  List.find pred arr.

End JS.

(* ================================================================== *)
(** ** photos-library/model/album.ts *)
(* ================================================================== *)

Module PhotosLibrary.
Import JS.

(** [enum AlbumType], with the numeric code of each member. *)
Inductive AlbumType : Type :=
| FOLDER
| ALBUM
| ARCHIVED.

Definition AlbumType_code (t : AlbumType) : Z :=
  match t with
  | FOLDER => 3
  | ALBUM => 0
  | ARCHIVED => 99
  end.

(** [t1 === t2] on enum members: strict equality of their codes. *)
Definition albumTypeEq (t1 t2 : AlbumType) : bool :=
  (AlbumType_code t1 =? AlbumType_code t2)%Z.

(** [type AlbumAssets]: asset filename to presented filename; the own
    properties of the object in enumeration order. *)
Definition AlbumAssets : Type := list (string * string).

(** Keys of a dictionary object are pairwise distinct. *)
Definition wf_assets (o : AlbumAssets) : Prop := NoDup (map fst o).

(** [Object.keys(o)]. *)
Definition objectKeys (o : AlbumAssets) : list string := map fst o.

(** [class Album]. The declared type of [assets] is [AlbumAssets], but
    [assetsEqual] allows for a missing mapping, so the field is
    nullable here. *)
Record Album : Type := mkAlbum {
  uuid : string;
  albumType : AlbumType;
  albumName : string;
  assets : nullable AlbumAssets;
  parentAlbumUUID : string
}.

(** [new Album(uuid, albumType, albumName, parentAlbumUUID)]. *)
Definition newAlbum (uuid : string) (albumType : AlbumType)
    (albumName parentAlbumUUID : string) : Album :=
  {| uuid := uuid;
     albumType := albumType;
     albumName := albumName;
     assets := present [];
     parentAlbumUUID := parentAlbumUUID |}.

Definition getDisplayName (this : Album) : string := albumName this.

Definition getSanitizedFilename (this : Album) : string :=
  replaceAll SLASH UNDERSCORE (albumName this).

Definition getUUID (this : Album) : string := uuid this.

Definition getRootAlbum : Album :=
  newAlbum "" FOLDER "iCloud Photos Library" "".

(** [getStashAlbum], for the [STASH_DIR] of [photos-library/constants]. *)
Definition getStashAlbum (STASH_DIR : string) : Album :=
  newAlbum STASH_DIR FOLDER "iCloud Photos Library Archive" "".

Definition assetsEqual (this : Album) (assets : nullable AlbumAssets)
    : bool :=
  let thisAssets := orElse (PhotosLibrary.assets this) [] in
  let otherAssets := orElse assets [] in
  strictEq (stringify (sort (objectKeys thisAssets)))
           (stringify (sort (objectKeys otherAssets))).

Definition equal (this : Album) (album : nullable Album) : value :=
  andAlso album (fun album =>
    strictEq (uuid this) (uuid album)
    && strictEq (getSanitizedFilename this) (getSanitizedFilename album)
    && strictEq (parentAlbumUUID this) (parentAlbumUUID album)
    && (albumTypeEq (albumType this) ARCHIVED
        || albumTypeEq (albumType album) ARCHIVED
        || (assetsEqual this (assets album)
            && albumTypeEq (albumType this) (albumType album)))).

(** The asset identifiers of an album, a missing mapping having none;
    an album is well formed when its mapping is. *)
Definition assetIds (a : Album) : list string :=
  objectKeys (orElse (assets a) []).

Definition wf_album (a : Album) : Prop :=
  wf_assets (orElse (assets a) []).

(** The album [a] with another value in its [assets] field. *)
Definition withAssets (a : Album) (o : nullable AlbumAssets) : Album :=
  {| uuid := uuid a;
     albumType := albumType a;
     albumName := albumName a;
     assets := o;
     parentAlbumUUID := parentAlbumUUID a |}.

(** *** Methods that run on objects of the heap

    [apply] assigns to a field of [this] and returns [this], so the
    album objects live in a store and are named by references. *)

Definition ref : Type := positive.
Abbreviation heap := (gmap ref Album).

(** A method body: reads and writes the store; [None] only for a
    reference that names no object. *)
Definition Method (A : Type) : Type := heap -> option (A * heap).

#[global] Instance Method_ret : MRet Method :=
  fun A (a : A) h => Some (a, h).

#[global] Instance Method_bind : MBind Method :=
  fun A B (k : A -> Method B) (m : Method A) h =>
    match m h with
    | Some (a, h') => k a h'
    | None => None
    end.

Definition deref (r : ref) : Method Album :=
  fun h => match h !! r with
           | Some a => Some (a, h)
           | None => None
           end.

Definition set_albumType (r : ref) (t : AlbumType) : Method unit :=
  fun h => match h !! r with
           | Some a =>
               Some (tt, <[r := {| uuid := uuid a;
                                   albumType := t;
                                   albumName := albumName a;
                                   assets := assets a;
                                   parentAlbumUUID := parentAlbumUUID a |}]> h)
           | None => None
           end.

(** [this.getSanitizedFilename()] on an object of the store. *)
Definition getSanitizedFilename_on (this : ref) : Method string :=
  a ← deref this;
  mret (replaceAll SLASH UNDERSCORE (albumName a)).

(** [this.apply(localEntity)]. *)
Definition apply (this : ref) (localEntity : nullable ref) : Method ref :=
  match localEntity with
  | null | undefined => mret this
  | present l =>
      localAlbum ← deref l;
      _ ← set_albumType this (albumType localAlbum);
      mret this
  end.

(** *** Walks along the parent links *)

Inductive LIBRARY_ERR : Type :=
| NO_DISTANCE_TO_ROOT.

(** A call either returns or throws an [iCPSError]. *)
Inductive outcome (A : Type) : Type :=
| Return (a : A)
| Throw (e : LIBRARY_ERR).
Arguments Return {A} a.
Arguments Throw {A} e.

(** [fullQueue.find(album => album.getUUID() === id)]. *)
Definition findByUUID (id : string) (fullQueue : list Album)
    : option Album :=
  find (fun album => strictEq (getUUID album) id) fullQueue.

(** [this.hasAncestor(potentialAncestor, fullQueue)]. *)
Fixpoint hasAncestor (fuel : nat) (this potentialAncestor : Album)
    (fullQueue : list Album) : option bool :=
  match fuel with
  | O => None
  | S fuel' =>
      if strictEq (parentAlbumUUID this) "" then Some false
      else if strictEq (getUUID potentialAncestor) (parentAlbumUUID this)
      then Some true
      else match findByUUID (parentAlbumUUID this) fullQueue with
           | Some parent =>
               hasAncestor fuel' parent potentialAncestor fullQueue
           | None => Some false
           end
  end.

(** [Album.distanceToRoot(album, fullQueue)]. *)
Fixpoint distanceToRoot (fuel : nat) (album : Album)
    (fullQueue : list Album) : option (outcome nat) :=
  match fuel with
  | O => None
  | S fuel' =>
      if strictEq (parentAlbumUUID album) "" then Some (Return 0)
      else match findByUUID (parentAlbumUUID album) fullQueue with
           | Some parent =>
               match distanceToRoot fuel' parent fullQueue with
               | Some (Return n) => Some (Return (n + 1))
               | Some (Throw e) => Some (Throw e)
               | None => None
               end
           | None => Some (Throw NO_DISTANCE_TO_ROOT)
           end
  end.

(** The outcome of a call that finishes, whatever the fuel. *)
Definition distanceToRoot_returns (album : Album) (fullQueue : list Album)
    (r : outcome nat) : Prop :=
  exists fuel, distanceToRoot fuel album fullQueue = Some r.

Definition hasAncestor_returns (this potentialAncestor : Album)
    (fullQueue : list Album) (r : bool) : Prop :=
  exists fuel, hasAncestor fuel this potentialAncestor fullQueue = Some r.

(** One more than the result of a call. *)
Definition plusOne (r : option (outcome nat)) : option (outcome nat) :=
  match r with
  | Some (Return n) => Some (Return (n + 1))
  | other => other
  end.

(** The album a walk moves to from [b]: none from a root album. *)
Definition parentIn (fullQueue : list Album) (b : Album) : option Album :=
  if strictEq (parentAlbumUUID b) "" then None
  else findByUUID (parentAlbumUUID b) fullQueue.

(** [depth] goes down along every parent link that can be followed
    from [a] or from an album of the queue: the links have no cycle. *)
Definition depthDecreases (depth : Album -> nat) (fullQueue : list Album)
    (a : Album) : Prop :=
  forall b p, In b (a :: fullQueue) -> parentIn fullQueue b = Some p ->
              depth p < depth b.

(** The parent chain from an album comes to a uuid that no album of the
    queue carries, without meeting [p] on the way. *)
Inductive reachesGap (p : Album) (fullQueue : list Album) : Album -> Prop :=
| gap_here (a : Album) :
    parentAlbumUUID a <> "" -> uuid p <> parentAlbumUUID a ->
    findByUUID (parentAlbumUUID a) fullQueue = None ->
    reachesGap p fullQueue a
| gap_above (a b : Album) :
    parentAlbumUUID a <> "" -> uuid p <> parentAlbumUUID a ->
    findByUUID (parentAlbumUUID a) fullQueue = Some b ->
    reachesGap p fullQueue b ->
    reachesGap p fullQueue a.

End PhotosLibrary.

(* ================================================================== *)
(** ** icloud/icloud-photos/constants.ts and the query loop *)
(* ================================================================== *)

Module ICloudPhotos.

Definition RECORD_CHANGE_TAG : string := "21h2".

(** The max record limit, requested and returned by iCloud. *)
Definition MAX_RECORDS_LIMIT : Z := 198.

(** The limit should be 200, but is chosen so that it divides by 3 (for
    albums) and by 2 (for all pictures). *)
Definition ALBUM_DIVISOR : Z := 3.
Definition PICTURE_DIVISOR : Z := 2.

(** Modelled from the spec: the pagination loop of the query executor
    (section 4.2, [icloud-photos.ts] is not among the sources). Each
    call asks for one page of [MAX_RECORDS_LIMIT] records from a
    continuation marker; the service answers with the records of the
    page and whether more are available; the loop goes on while more
    are signalled and stops on an empty or short page. *)
Record PageRequest : Type := mkPageRequest {
  continuation : Z;
  resultsLimit : Z
}.

Record Page (R : Type) : Type := mkPage {
  records : list R;
  moreAvailable : bool
}.
Arguments mkPage {R} records moreAvailable.
Arguments records {R} p.
Arguments moreAvailable {R} p.

Definition isFinalPage {R : Type} (p : Page R) : bool :=
  negb (moreAvailable p)
  || (Z.of_nat (length (records p)) <? MAX_RECORDS_LIMIT)%Z.

(** The sweep returns the requests it issued and the records it got;
    [pages] bounds the number of calls. *)
Fixpoint sweep {R : Type} (pages : nat) (service : PageRequest -> Page R)
    (marker : Z) : list PageRequest * list R :=
  match pages with
  | O => ([], [])
  | S pages' =>
      let request := {| continuation := marker;
                        resultsLimit := MAX_RECORDS_LIMIT |} in
      let page := service request in
      if isFinalPage page then ([request], records page)
      else
        let '(requests, rest) :=
          sweep pages' service (marker + Z.of_nat (length (records page)))%Z in
        (request :: requests, records page ++ rest)
  end.

End ICloudPhotos.

(* ================================================================== *)
(** ** The session steps [getTokens] and [setupAccount] *)
(* ================================================================== *)

Module ICloud.

Inductive SessionState : Type :=
| NEEDS_AUTH
| AUTHENTICATING
| MFA_REQUIRED
| AUTHENTICATED
| TRUSTED
| ACCOUNT_READY
| FAILED.

Inductive SessionError : Type :=
| TokenAcquisitionFailed
| AccountSetupFailed
| PhotosServiceNotReady.

(** The one-shot readiness signal. *)
Inductive Readiness : Type :=
| Pending
| Resolved
| Rejected (e : SessionError).

(** What a call to the service comes back with. *)
Inductive HttpResult (A : Type) : Type :=
| NetworkError
| Response (status : Z) (payload : A).
Arguments NetworkError {A}.
Arguments Response {A} status payload.

(** A cookie with its expiry, in milliseconds since the epoch; a cookie
    without expiry lasts for the session. *)
Record Cookie : Type := mkCookie {
  cookieName : string;
  cookieValue : string;
  expires : option Z
}.

(** The photo-library component, built on the service endpoint. *)
Record PhotosComponent : Type := mkPhotos {
  serviceUrl : string
}.

Record Session : Type := mkSession {
  state : SessionState;
  ready : Readiness;
  sessionToken : string;
  trustToken : string;
  trustTokenFile : option string;
  cookies : list Cookie;
  photos : option PhotosComponent
}.

(** Headers of the answer of the token endpoint. *)
Record TokenHeaders : Type := mkTokenHeaders {
  sessionTokenHeader : option string;
  trustTokenHeader : option string
}.

(** Payload of the answer of the account-setup endpoint. *)
Record SetupPayload : Type := mkSetupPayload {
  setCookie : list Cookie;
  photosServiceUrl : option string
}.

(** Modelled from the spec: failing the session (section 5, the
    readiness signal is a single-resolution future): the state becomes
    [FAILED] and a pending signal is rejected; a signal that is already
    settled stays as it is. *)
Definition fail (e : SessionError) (s : Session) : Session :=
  {| state := FAILED;
     ready := match ready s with Pending => Rejected e | r => r end;
     sessionToken := sessionToken s;
     trustToken := trustToken s;
     trustTokenFile := trustTokenFile s;
     cookies := cookies s;
     photos := photos s |}.

(** Modelled from the spec: [getTokens] of the iCloud class (section
    4.1, [icloud.ts] is not among the sources). A 200 answer that
    carries the trust-token header stores the tokens, overwrites the
    trust-token file with the new token and moves to [TRUSTED]; any
    other answer and a network error fail with [TokenAcquisitionFailed]
    and leave the file as it is. *)
Definition getTokens (answer : HttpResult TokenHeaders) (s : Session)
    : Session :=
  match answer with
  | NetworkError => fail TokenAcquisitionFailed s
  | Response status headers =>
      if (status =? 200)%Z then
        match trustTokenHeader headers with
        | Some newTrust =>
            {| state := TRUSTED;
               ready := ready s;
               sessionToken :=
                 default (sessionToken s) (sessionTokenHeader headers);
               trustToken := newTrust;
               trustTokenFile := Some newTrust;
               cookies := cookies s;
               photos := photos s |}
        | None => fail TokenAcquisitionFailed s
        end
      else fail TokenAcquisitionFailed s
  end.

(** A cookie whose expiry has already elapsed at [now]. *)
Definition expired (now : Z) (c : Cookie) : bool :=
  match expires c with
  | Some e => (e <? now)%Z
  | None => false
  end.

Definition liveCookies (now : Z) (cs : list Cookie) : list Cookie :=
  List.filter (fun c => negb (expired now c)) cs.

(** Modelled from the spec: [setupAccount] of the iCloud class (section
    4.1, [icloud.ts] is not among the sources). A 200 answer with at
    least one cookie that has not expired and with the photo-service
    endpoint stores the cookies, builds the photo-library component and
    moves to [ACCOUNT_READY]; every other answer and a network error
    fail with [AccountSetupFailed]. *)
Definition setupAccount (now : Z) (answer : HttpResult SetupPayload)
    (s : Session) : Session :=
  match answer with
  | NetworkError => fail AccountSetupFailed s
  | Response status payload =>
      if (status =? 200)%Z then
        match liveCookies now (setCookie payload),
              photosServiceUrl payload with
        | c :: cs, Some url =>
            {| state := ACCOUNT_READY;
               ready := ready s;
               sessionToken := sessionToken s;
               trustToken := trustToken s;
               trustTokenFile := trustTokenFile s;
               cookies := c :: cs;
               photos := Some {| serviceUrl := url |} |}
        | _, _ => fail AccountSetupFailed s
        end
      else fail AccountSetupFailed s
  end.

(** A session that has authenticated and awaits its tokens. *)
Definition authenticated (sessionToken trustToken : string)
    (file : option string) : Session :=
  {| state := AUTHENTICATED;
     ready := Pending;
     sessionToken := sessionToken;
     trustToken := trustToken;
     trustTokenFile := file;
     cookies := [];
     photos := None |}.

End ICloud.

(* ================================================================== *)
(** ** album.ts: records from the backend, variants of an album *)
(* ================================================================== *)

Module AlbumSource.
Import JS PhotosLibrary.

(** The album [a] under another name, and with another type. *)
Definition withName (a : Album) (n : string) : Album :=
  {| uuid := uuid a;
     albumType := albumType a;
     albumName := n;
     assets := assets a;
     parentAlbumUUID := parentAlbumUUID a |}.

Definition withType (a : Album) (t : AlbumType) : Album :=
  {| uuid := uuid a;
     albumType := t;
     albumName := albumName a;
     assets := assets a;
     parentAlbumUUID := parentAlbumUUID a |}.

(** [CPLAlbum] of [icloud-photos/query-parser]: the fields that
    [fromCPL] reads; [parentId] and [assets] may be missing. *)
Record CPLAlbum : Type := mkCPLAlbum {
  recordName : string;
  cplAlbumType : AlbumType;
  albumNameEnc : string;
  parentId : nullable string;
  cplAssets : nullable AlbumAssets
}.

(** [s ? s : d] on a string that may be missing: the empty string is
    falsy as well. *)
Definition stringOrElse (s : nullable string) (d : string) : string :=
  match s with
  | present v => if strictEq v "" then d else v
  | null | undefined => d
  end.

Section FromCPL.

(** [Buffer.from(enc, 'base64').toString('utf8')]. *)
Variable base64ToUtf8 : string -> string.

(** [Album.fromCPL(cplAlbum)]; [x ?? d] on an object reference is
    [orElse]. *)
Definition fromCPL (cplAlbum : CPLAlbum) : Album :=
  let album :=
    newAlbum (recordName cplAlbum) (cplAlbumType cplAlbum)
             (base64ToUtf8 (albumNameEnc cplAlbum))
             (stringOrElse (parentId cplAlbum) "") in
  withAssets album (present (orElse (cplAssets cplAlbum) [])).

End FromCPL.

(** A queue that lists every album after its parent: the parent uuid of
    an album is empty or carried by an album at an earlier place. *)
Definition parentsFirst (fullQueue : list Album) : Prop :=
  forall i b, fullQueue !! i = Some b ->
    parentAlbumUUID b = ""
    \/ exists j c, j < i /\ fullQueue !! j = Some c
                   /\ uuid c = parentAlbumUUID b.

(** A queue in which no parent is missing: the parent uuid of [a] and of
    every album of the queue is empty or carried by an album of the
    queue. *)
Definition noGap (fullQueue : list Album) (a : Album) : Prop :=
  forall b, In b (a :: fullQueue) ->
    parentAlbumUUID b = ""
    \/ exists c, In c fullQueue /\ uuid c = parentAlbumUUID b.

End AlbumSource.

(* ================================================================== *)
(** ** lib/logger.ts: setting up the logger *)
(* ================================================================== *)

Module Logger.
Import JS.

Definition LOG_FILE_NAME : string := ".icloud-photos-sync.log".

(** The options that [setupLogger] reads. *)
Record OptionValues : Type := mkOptions {
  dataDir : string;
  logToCli : bool;
  silent : bool;
  logLevel : string
}.

(** [if (s)] on a string that may be undefined. *)
Definition truthyString (s : nullable string) : bool :=
  match s with
  | present v => negb (strictEq v "")
  | null | undefined => false
  end.

Section Setup.

(** The world outside the module: the file system, the console and the
    state of the loglevel library, with the calls that [setupLogger]
    makes; a call that can throw returns the error beside the world it
    leaves. *)
Variable Env : Type.
Variable Error : Type.

(** [path.format({dir, base})] and [path.dirname(p)]. *)
Variable pathFormat : string -> string -> string.
Variable pathDirname : string -> string.

Variable existsSync : string -> Env -> bool.
(** [fs.mkdirSync(p, {recursive: true})] and [fs.truncateSync(p)]. *)
Variable mkdirSync : string -> Env -> Env * option Error.
Variable truncateSync : string -> Env -> Env * option Error.
(** [log.methodFactory = ...], the factory closing over the options. *)
Variable setMethodFactory : OptionValues -> Env -> Env.
(** [log.setLevel(level)] and [log.warn(message)]. *)
Variable setLevel : string -> Env -> Env * option Error.
Variable warn : string -> Env -> Env * option Error.

(** The module variable [logFile], undefined until the first setup, and
    the world. *)
Record LoggerState : Type := mkLoggerState {
  logFile : nullable string;
  env : Env
}.

Definition TRACE_WARNING : string :=
  "Log level set to 'trace', private data might be recorded in logs!".

(** A step that can throw, then the rest. *)
Definition andThen (file : string) (step : Env * option Error)
    (rest : Env -> LoggerState * option Error)
    : LoggerState * option Error :=
  match step with
  | (e, Some err) => ({| logFile := present file; env := e |}, Some err)
  | (e, None) => rest e
  end.

(** [setupLogger(options)]: the state it leaves, and the error if a call
    threw. *)
Definition setupLogger (options : OptionValues) (s : LoggerState)
    : LoggerState * option Error :=
  if truthyString (logFile s) then (s, None)
  else
    let file := pathFormat (dataDir options) LOG_FILE_NAME in
    let logPath := pathDirname file in
    andThen file
      (if existsSync logPath (env s) then (env s, None)
       else mkdirSync logPath (env s))
      (fun e1 =>
    andThen file
      (if existsSync file e1 then truncateSync file e1 else (e1, None))
      (fun e2 =>
    andThen file (setLevel (logLevel options) (setMethodFactory options e2))
      (fun e3 =>
    andThen file
      (if strictEq (logLevel options) "trace" then warn TRACE_WARNING e3
       else (e3, None))
      (fun e4 => ({| logFile := present file; env := e4 |}, None))))).

End Setup.

(** A small world to run [setupLogger] in: the paths that were
    truncated, most recent first; every path exists, no call throws, and
    [path.format] joins a non-empty directory and the base with a
    slash. *)
Definition examplePathFormat (dir base : string) : string :=
  match dir with
  | EmptyString => base
  | _ => dir +:+ "/" +:+ base
  end.

Definition exampleSetup (options : OptionValues)
    (s : LoggerState (list string)) : LoggerState (list string) * option unit :=
  setupLogger (list string) unit examplePathFormat (fun _ => "/data")
    (fun _ _ => true) (fun _ e => (e, None)) (fun p e => (p :: e, None))
    (fun _ e => e) (fun _ e => (e, None)) (fun _ e => (e, None)) options s.

End Logger.

(* ================================================================== *)
(** ** Facts about the JavaScript primitives *)
(* ================================================================== *)

Section SortFacts.
Import JS.

Lemma ascii_compare_spec (x y : ascii) :
  CompareSpec (x = y) (N_of_ascii x < N_of_ascii y)%N
              (N_of_ascii y < N_of_ascii x)%N (Ascii.compare x y).
Proof.
  unfold Ascii.compare.
  destruct (N.compare_spec (N_of_ascii x) (N_of_ascii y)) as [E|L|G];
    constructor; try assumption.
  rewrite <- (ascii_N_embedding x), <- (ascii_N_embedding y).
  now rewrite E.
Qed.

Lemma string_compare_not_Gt_trans (a b c : string) :
  String.compare a b <> Gt -> String.compare b c <> Gt ->
  String.compare a c <> Gt.
Proof.
  revert b c.
  induction a as [|x a IH]; intros [|y b] [|z c]; simpl;
    try (intros; discriminate); try (intros H1 H2; congruence).
  destruct (ascii_compare_spec x y) as [Exy|Hxy|Hxy];
    destruct (ascii_compare_spec y z) as [Eyz|Hyz|Hyz];
    destruct (ascii_compare_spec x z) as [Exz|Hxz|Hxz];
    try congruence; try lia; try (subst; lia).
  apply IH.
Qed.

#[local] Instance str_le_trans : Transitive str_le.
Proof.
  intros a b c. unfold str_le, String.leb. intros Hab Hbc.
  pose proof (string_compare_not_Gt_trans a b c) as T.
  destruct (String.compare a b); try discriminate;
    destruct (String.compare b c); try discriminate;
    destruct (String.compare a c); try reflexivity;
    exfalso; apply T; congruence.
Qed.

#[local] Instance str_le_total : Total str_le.
Proof. intros a b. apply String.leb_total. Qed.

#[local] Instance str_le_antisym : AntiSymm (=) str_le.
Proof. intros a b. apply String.leb_antisym. Qed.

Lemma sort_Permutation (l : list string) : sort l ≡ₚ l.
Proof. apply merge_sort_Permutation. Qed.

Lemma sort_Sorted (l : list string) : Sorted str_le (sort l).
Proof. apply (Sorted_merge_sort str_le). Qed.

(** Sorting forgets exactly the order of the elements. *)
Lemma sort_eq_iff_Permutation (l k : list string) :
  sort l = sort k <-> l ≡ₚ k.
Proof.
  split.
  - intros E. rewrite <- (sort_Permutation l), E. apply sort_Permutation.
  - intros P. apply (Sorted_unique str_le); try apply sort_Sorted.
    rewrite !sort_Permutation. exact P.
Qed.

End SortFacts.

Section StringifyFacts.
Import JS.

Lemma string_app_assoc (a b c : string) : (a +:+ b) +:+ c = a +:+ (b +:+ c).
Proof.
  induction a as [|x a IH]; [reflexivity|].
  change (String x ((a +:+ b) +:+ c) = String x (a +:+ (b +:+ c))).
  now f_equal.
Qed.

Lemma string_app_empty_l (a : string) : "" +:+ a = a.
Proof. reflexivity. Qed.

Lemma string_app_cons (x : ascii) (a b : string) :
  String x a +:+ b = String x (a +:+ b).
Proof. reflexivity. Qed.

Lemma unquote_quoteJSONChar (c : ascii) (r : string) :
  unquoteJSONChar (quoteJSONChar c +:+ r) = Some (c, r).
Proof.
  destruct c as [[] [] [] [] [] [] [] []]; reflexivity.
Qed.

Lemma unquote_DQUOTE (r : string) : unquoteJSONChar (String DQUOTE r) = None.
Proof. reflexivity. Qed.

(** The quoted body of a string, closed by its quotation mark, can be
    read back in one way only. *)
Lemma quoteJSONBody_inj (s s' r r' : string) :
  quoteJSONBody s +:+ String DQUOTE r = quoteJSONBody s' +:+ String DQUOTE r' ->
  s = s' /\ r = r'.
Proof.
  revert s'.
  induction s as [|c s IH]; intros [|c' s'];
    cbn [quoteJSONBody]; rewrite ?string_app_empty_l; intros E.
  - now inversion E.
  - rewrite string_app_assoc in E.
    apply (f_equal unquoteJSONChar) in E.
    rewrite unquote_quoteJSONChar, unquote_DQUOTE in E. discriminate.
  - rewrite string_app_assoc in E.
    apply (f_equal unquoteJSONChar) in E.
    rewrite unquote_quoteJSONChar, unquote_DQUOTE in E. discriminate.
  - rewrite !string_app_assoc in E.
    apply (f_equal unquoteJSONChar) in E.
    rewrite !unquote_quoteJSONChar in E.
    inversion E as [[Ec Er]].
    destruct (IH _ Er) as [-> ->]. now split.
Qed.

Lemma quoteJSONString_inj (s s' r r' : string) :
  quoteJSONString s +:+ r = quoteJSONString s' +:+ r' -> s = s' /\ r = r'.
Proof.
  unfold quoteJSONString.
  rewrite !string_app_cons, !string_app_assoc, !string_app_cons,
    !string_app_empty_l.
  intros E. inversion E as [E']. now apply quoteJSONBody_inj.
Qed.

Lemma joinComma_cons (p q : string) (l : list string) :
  joinComma (p :: q :: l) = p +:+ String COMMA (joinComma (q :: l)).
Proof. reflexivity. Qed.

Lemma joinComma_quoted_inj (l l' : list string) (r r' : string) :
  joinComma (map quoteJSONString l) +:+ String RBRACKET r
  = joinComma (map quoteJSONString l') +:+ String RBRACKET r' ->
  l <> [] -> l' <> [] -> l = l'.
Proof.
  revert l'.
  induction l as [|x l IH]; intros [|x' l'] E Hl Hl'; try congruence.
  destruct l as [|y l]; destruct l' as [|y' l'].
  - simpl in E. apply quoteJSONString_inj in E as [-> _]. reflexivity.
  - cbn [map] in E. rewrite joinComma_cons in E. cbn [joinComma] in E.
    rewrite string_app_assoc in E.
    apply quoteJSONString_inj in E as [_ E]. discriminate.
  - cbn [map] in E. rewrite joinComma_cons in E. cbn [joinComma] in E.
    rewrite string_app_assoc in E.
    apply quoteJSONString_inj in E as [_ E]. discriminate.
  - cbn [map] in E. rewrite !joinComma_cons in E.
    rewrite !string_app_assoc in E.
    apply quoteJSONString_inj in E as [-> E].
    simpl in E. inversion E as [E'].
    f_equal. apply IH; [exact E' | discriminate | discriminate].
Qed.

Lemma stringify_cons (x : string) (l : list string) :
  stringify (x :: l)
  = String LBRACKET
      (joinComma (map quoteJSONString (x :: l)) +:+ String RBRACKET "").
Proof. reflexivity. Qed.

Lemma joinComma_quoted_head (x : string) (l : list string) :
  exists t, joinComma (map quoteJSONString (x :: l)) = String DQUOTE t.
Proof.
  destruct l as [|y l]; cbn [map]; [|rewrite joinComma_cons];
    unfold quoteJSONString at 1; eexists; reflexivity.
Qed.

(** [JSON.stringify] is injective on arrays of strings. *)
Lemma stringify_inj (l l' : list string) :
  stringify l = stringify l' -> l = l'.
Proof.
  destruct l as [|x l]; destruct l' as [|x' l']; intros E.
  - reflexivity.
  - exfalso. rewrite stringify_cons in E.
    destruct (joinComma_quoted_head x' l') as [t Ht]. rewrite Ht in E.
    discriminate.
  - exfalso. rewrite stringify_cons in E.
    destruct (joinComma_quoted_head x l) as [t Ht]. rewrite Ht in E.
    discriminate.
  - rewrite !stringify_cons in E. injection E as E'.
    apply (joinComma_quoted_inj _ _ "" ""); [exact E' | discriminate..].
Qed.

End StringifyFacts.

(* ================================================================== *)
(** ** Album: sanitized name, equality, apply *)
(* ================================================================== *)

Section AlbumFacts.
Import JS PhotosLibrary.

Lemma replaceAll_length (pat rep : ascii) (s : string) :
  String.length (replaceAll pat rep s) = String.length s.
Proof. induction s as [|c s IH]; simpl; [reflexivity|]. now rewrite IH. Qed.

Lemma replaceAll_get (pat rep : ascii) (s : string) (i : nat) :
  String.get i (replaceAll pat rep s)
  = (fun c => if Ascii.eqb c pat then rep else c) <$> String.get i s.
Proof.
  revert i. induction s as [|c s IH]; intros i; simpl; [reflexivity|].
  destruct i as [|i]; [reflexivity|]. apply IH.
Qed.

Lemma replaceAll_absent (pat rep : ascii) (s : string) (i : nat) :
  rep <> pat -> String.get i (replaceAll pat rep s) <> Some pat.
Proof.
  intros Hne. rewrite replaceAll_get.
  destruct (String.get i s) as [c|]; simpl; [|discriminate].
  destruct (Ascii.eqb_spec c pat) as [->|Hc]; congruence.
Qed.

(** C7. [getSanitizedFilename] returns the album name with every slash
    replaced by an underscore: same length, every other unit in its
    place, no slash left; called on an object of the store, it returns
    that string and leaves the store, and so the stored [albumName], as
    it was. *)
Theorem getSanitizedFilename_replaces_slashes
    (h : heap) (this : ref) (a : Album) :
  h !! this = Some a ->
  getSanitizedFilename_on this h = Some (getSanitizedFilename a, h)
  /\ String.length (getSanitizedFilename a) = String.length (albumName a)
  /\ (forall i,
        String.get i (getSanitizedFilename a)
        = (fun c => if Ascii.eqb c SLASH then UNDERSCORE else c)
            <$> String.get i (albumName a))
  /\ (forall i, String.get i (getSanitizedFilename a) <> Some SLASH).
Proof.
  intros Hthis. repeat split.
  - unfold getSanitizedFilename_on, deref, mbind, Method_bind, mret, Method_ret.
    now rewrite Hthis.
  - apply replaceAll_length.
  - intros i. apply replaceAll_get.
  - intros i. apply replaceAll_absent. discriminate.
Qed.

Lemma getSanitizedFilename_replaces_slashes_witness :
  let a := newAlbum "u1" ALBUM "2020/Summer/Sea" "" in
  let h : heap := {[ 1%positive := a ]} in
  h !! 1%positive = Some a
  /\ getSanitizedFilename_on 1%positive h = Some ("2020_Summer_Sea", h)
  /\ forall i, String.get i (getSanitizedFilename a) <> Some SLASH.
Proof.
  intros a h.
  assert (Hthis : h !! 1%positive = Some a) by reflexivity.
  destruct (getSanitizedFilename_replaces_slashes h 1%positive a Hthis)
    as (Hcall & _ & _ & Hnone).
  split; [exact Hthis|]. split; [exact Hcall | exact Hnone].
Defined.

Lemma strictEq_true_iff (s t : string) : strictEq s t = true <-> s = t.
Proof. apply String.eqb_eq. Qed.

Lemma albumTypeEq_true_iff (t1 t2 : AlbumType) :
  albumTypeEq t1 t2 = true <-> t1 = t2.
Proof. destruct t1, t2; cbv; split; congruence. Qed.

(** [assetsEqual] compares the keys up to their order. *)
Lemma assetsEqual_true_iff (a : Album) (o : nullable AlbumAssets) :
  assetsEqual a o = true <-> assetIds a ≡ₚ objectKeys (orElse o []).
Proof.
  unfold assetsEqual, assetIds. rewrite strictEq_true_iff.
  rewrite <- sort_eq_iff_Permutation.
  split; [apply stringify_inj | now intros ->].
Qed.

Lemma assetsEqual_Permutation (a : Album) (o oa ob : AlbumAssets) :
  oa ≡ₚ orElse (assets a) [] -> ob ≡ₚ o ->
  assetsEqual (withAssets a (present oa)) (present ob)
  = assetsEqual a (present o).
Proof.
  intros Ha Hb. unfold assetsEqual. cbn [withAssets assets orElse].
  assert (Ea : sort (objectKeys oa) = sort (objectKeys (orElse (assets a) []))).
  { apply sort_eq_iff_Permutation. unfold objectKeys. now rewrite Ha. }
  assert (Eb : sort (objectKeys ob) = sort (objectKeys o)).
  { apply sort_eq_iff_Permutation. unfold objectKeys. now rewrite Hb. }
  now rewrite Ea, Eb.
Qed.

Lemma same_ids_iff_Permutation (a b : Album) :
  wf_album a -> wf_album b ->
  (assetIds a ≡ₚ assetIds b <-> forall k, In k (assetIds a) <-> In k (assetIds b)).
Proof.
  intros Wa Wb. split.
  - intros P k. rewrite <- !list_elem_of_In. now rewrite P.
  - intros Hk. apply NoDup_Permutation; [exact Wa | exact Wb |].
    intros k. rewrite !list_elem_of_In. apply Hk.
Qed.

(** C1. On two well-formed albums [equal] returns true exactly when the
    uuids, the sanitized filenames and the parent uuids agree and either
    one of the two is ARCHIVED or the types agree and the two albums
    have the same set of asset identifiers; listing the assets of either
    album in another order does not change the result. *)
Theorem equal_iff (a b : Album) :
  wf_album a -> wf_album b ->
  (equal a (present b) = VBool true <->
     uuid a = uuid b
     /\ getSanitizedFilename a = getSanitizedFilename b
     /\ parentAlbumUUID a = parentAlbumUUID b
     /\ ((albumType a = ARCHIVED \/ albumType b = ARCHIVED)
         \/ (albumType a = albumType b
             /\ forall k, In k (assetIds a) <-> In k (assetIds b))))
  /\ (forall oa ob : AlbumAssets,
        oa ≡ₚ orElse (assets a) [] -> ob ≡ₚ orElse (assets b) [] ->
        equal (withAssets a (present oa)) (present (withAssets b (present ob)))
        = equal a (present b)).
Proof.
  intros Wa Wb. split.
  - unfold equal, andAlso.
    split.
    + intros E. injection E as E.
      rewrite !andb_true_iff, !orb_true_iff, andb_true_iff in E.
      rewrite !strictEq_true_iff, !albumTypeEq_true_iff in E.
      rewrite assetsEqual_true_iff in E.
      destruct E as [[[Hu Hn] Hp] Hrest].
      repeat (split; [assumption|]).
      destruct Hrest as [[Ha|Hb]|[Hperm Ht]]; [tauto | tauto |].
      right. split; [exact Ht|].
      now apply same_ids_iff_Permutation.
    + intros (Hu & Hn & Hp & Hrest). f_equal.
      rewrite !andb_true_iff, !orb_true_iff, andb_true_iff.
      rewrite !strictEq_true_iff, !albumTypeEq_true_iff.
      rewrite assetsEqual_true_iff.
      split; [repeat split; assumption|].
      destruct Hrest as [[Ha|Hb]|[Ht Hk]]; [tauto | tauto |].
      right. split; [|exact Ht].
      now apply same_ids_iff_Permutation.
  - intros oa ob Ha Hb. unfold equal, andAlso.
    cbn [withAssets uuid albumType parentAlbumUUID assets
         getSanitizedFilename albumName].
    rewrite (assetsEqual_Permutation a (orElse (assets b) []) oa ob Ha Hb).
    reflexivity.
Qed.

Lemma equal_iff_witness :
  let a := withAssets (newAlbum "u1" ALBUM "Trips/2020" "p1")
             (present [("a.jpeg", "IMG_1.jpeg"); ("b.jpeg", "IMG_2.jpeg")]) in
  let b := withAssets (newAlbum "u1" ALBUM "Trips_2020" "p1")
             (present [("b.jpeg", "IMG_2.jpeg"); ("a.jpeg", "IMG_1.jpeg")]) in
  wf_album a /\ wf_album b /\ equal a (present b) = VBool true.
Proof.
  intros a b.
  assert (Wa : wf_album a) by (apply (bool_decide_unpack _); vm_compute; exact I).
  assert (Wb : wf_album b) by (apply (bool_decide_unpack _); vm_compute; exact I).
  split; [exact Wa|]. split; [exact Wb|].
  apply (proj1 (equal_iff a b Wa Wb)).
  repeat (split; [reflexivity|]).
  right. split; [reflexivity|].
  intros k. simpl. tauto.
Defined.

Example equal_computes :
  equal (withAssets (newAlbum "u1" ALBUM "A" "")
           (present [("x", "1"); ("y", "2")]))
        (present (withAssets (newAlbum "u1" ALBUM "A" "")
           (present [("y", "2"); ("x", "1")])))
  = VBool true
  /\ equal (withAssets (newAlbum "u1" ALBUM "A" "") (present [("x", "1")]))
           (present (newAlbum "u1" ALBUM "A" ""))
     = VBool false
  /\ equal (withAssets (newAlbum "u1" ARCHIVED "A" "") (present [("x", "1")]))
           (present (newAlbum "u1" FOLDER "A" ""))
     = VBool true.
Proof. vm_compute. repeat split. Qed.

(** C10. [equal] and [assetsEqual] are total: against [null] or
    [undefined], [equal] hands back that falsy argument; [assetsEqual]
    reads a [null] or [undefined] mapping, on either side, as the empty
    mapping, so a missing mapping and an empty one have equal assets. *)
Theorem equal_assetsEqual_total (a : Album) (o : nullable AlbumAssets) :
  (equal a null = VNull /\ falsy (equal a null) = true)
  /\ (equal a undefined = VUndefined /\ falsy (equal a undefined) = true)
  /\ (forall b, exists r, equal a (present b) = VBool r)
  /\ assetsEqual a null = assetsEqual a (present [])
  /\ assetsEqual a undefined = assetsEqual a (present [])
  /\ assetsEqual (withAssets a null) o = assetsEqual (withAssets a (present [])) o
  /\ assetsEqual (withAssets a undefined) o
     = assetsEqual (withAssets a (present [])) o
  /\ assetsEqual (withAssets a undefined) (present []) = true
  /\ assetsEqual (withAssets a (present [])) undefined = true
  /\ equal (withAssets a undefined) (present (withAssets a (present [])))
     = VBool true.
Proof.
  repeat split; try reflexivity.
  - intros b. eexists. reflexivity.
  - unfold equal, andAlso. f_equal.
    cbn [withAssets uuid albumType parentAlbumUUID assets
         getSanitizedFilename albumName].
    rewrite !andb_true_iff, !orb_true_iff, andb_true_iff.
    rewrite !strictEq_true_iff, !albumTypeEq_true_iff.
    split; [repeat split; reflexivity|].
    right. split; reflexivity.
Qed.

Lemma apply_present (h : heap) (this l : ref) (remote localAlbum : Album) :
  h !! this = Some remote -> h !! l = Some localAlbum ->
  apply this (present l) h
  = Some (this, <[this := {| uuid := uuid remote;
                             albumType := albumType localAlbum;
                             albumName := albumName remote;
                             assets := assets remote;
                             parentAlbumUUID := parentAlbumUUID remote |}]> h).
Proof.
  intros Hr Hl.
  unfold apply, deref, set_albumType, mbind, Method_bind, mret, Method_ret.
  now rewrite Hl, Hr.
Qed.

(** C9. [r.apply(l)] returns [r]; afterwards [r] has the album type of
    [l] and the uuid, name, parent uuid and assets it had before, and
    every other object of the store is as before; with [null] or
    [undefined] for [l] the call returns [r] and the store is as
    before. *)
Theorem apply_changes_albumType_only
    (h : heap) (r l : ref) (remote localAlbum : Album) :
  h !! r = Some remote -> h !! l = Some localAlbum ->
  (exists (h' : heap) (remote' : Album),
      apply r (present l) h = Some (r, h')
      /\ h' !! r = Some remote'
      /\ albumType remote' = albumType localAlbum
      /\ uuid remote' = uuid remote
      /\ albumName remote' = albumName remote
      /\ parentAlbumUUID remote' = parentAlbumUUID remote
      /\ assets remote' = assets remote
      /\ forall r' : ref, r' <> r -> h' !! r' = h !! r')
  /\ apply r null h = Some (r, h)
  /\ apply r undefined h = Some (r, h).
Proof.
  intros Hr Hl. split; [|split; reflexivity].
  eexists. eexists. split; [apply (apply_present _ _ _ _ _ Hr Hl)|].
  split; [apply lookup_insert_eq|].
  repeat (split; [reflexivity|]).
  intros r' Hne. now apply lookup_insert_ne.
Qed.

Lemma apply_changes_albumType_only_witness :
  let remote := withAssets (newAlbum "u1" ALBUM "A" "p")
                  (present [("x", "1")]) in
  let localAlbum := newAlbum "u1" ARCHIVED "A" "p" in
  let h : heap := {[ 1%positive := remote; 2%positive := localAlbum ]} in
  h !! 1%positive = Some remote /\ h !! 2%positive = Some localAlbum
  /\ exists h' : heap,
       apply 1%positive (present 2%positive) h = Some (1%positive, h')
       /\ h' !! 1%positive
          = Some (withAssets (newAlbum "u1" ARCHIVED "A" "p")
                    (present [("x", "1")]))
       /\ h' !! 2%positive = Some localAlbum.
Proof.
  intros remote localAlbum h.
  assert (Hr : h !! 1%positive = Some remote) by reflexivity.
  assert (Hl : h !! 2%positive = Some localAlbum) by reflexivity.
  split; [exact Hr|]. split; [exact Hl|].
  destruct (apply_changes_albumType_only h 1%positive 2%positive
              remote localAlbum Hr Hl)
    as [(h' & remote' & Hcall & Hlook & Ht & Hu & Hn & Hp & Ha & Hframe) _].
  exists h'. split; [exact Hcall|]. split.
  - refine (eq_trans Hlook _). f_equal. destruct remote' as [u t n a p].
    simpl in Ht, Hu, Hn, Hp, Ha. subst. reflexivity.
  - refine (eq_trans (Hframe 2%positive _) Hl). discriminate.
Defined.

End AlbumFacts.

(* ================================================================== *)
(** ** Album: walks along the parent links *)
(* ================================================================== *)

Section HierarchyFacts.
Import JS PhotosLibrary.

Lemma strictEq_false_iff (s t : string) : strictEq s t = false <-> s <> t.
Proof. apply String.eqb_neq. Qed.

Lemma findByUUID_Some (id : string) (q : list Album) (p : Album) :
  findByUUID id q = Some p -> In p q /\ uuid p = id.
Proof.
  intros H. apply List.find_some in H as [Hin Heq].
  split; [exact Hin|]. now apply strictEq_true_iff.
Qed.

Lemma findByUUID_None (id : string) (q : list Album) :
  findByUUID id q = None <-> forall b, In b q -> uuid b <> id.
Proof.
  split.
  - intros H b Hb. apply strictEq_false_iff.
    exact (List.find_none _ _ H b Hb).
  - intros H. destruct (findByUUID id q) as [p|] eqn:E; [|reflexivity].
    apply findByUUID_Some in E as [Hin Hid]. now destruct (H p Hin).
Qed.

Lemma findByUUID_is_Some (id : string) (q : list Album) :
  (exists b, In b q /\ uuid b = id) -> exists p, findByUUID id q = Some p.
Proof.
  intros (b & Hb & Hid).
  destruct (findByUUID id q) as [p|] eqn:E; [now exists p|].
  rewrite findByUUID_None in E. now destruct (E b Hb).
Qed.

Lemma distanceToRoot_root (fuel : nat) (a : Album) (q : list Album) :
  parentAlbumUUID a = "" -> distanceToRoot (S fuel) a q = Some (Return 0).
Proof. intros E. simpl. now rewrite (proj2 (strictEq_true_iff _ _) E). Qed.

Lemma distanceToRoot_step (fuel : nat) (a p : Album) (q : list Album) :
  parentAlbumUUID a <> "" -> findByUUID (parentAlbumUUID a) q = Some p ->
  distanceToRoot (S fuel) a q = plusOne (distanceToRoot fuel p q).
Proof.
  intros Hne Hfind. cbn [distanceToRoot].
  rewrite (proj2 (strictEq_false_iff _ _) Hne), Hfind.
  now destruct (distanceToRoot fuel p q) as [[n|e]|].
Qed.

Lemma distanceToRoot_gap (fuel : nat) (a : Album) (q : list Album) :
  parentAlbumUUID a <> "" -> findByUUID (parentAlbumUUID a) q = None ->
  distanceToRoot (S fuel) a q = Some (Throw NO_DISTANCE_TO_ROOT).
Proof.
  intros Hne Hfind. cbn [distanceToRoot].
  now rewrite (proj2 (strictEq_false_iff _ _) Hne), Hfind.
Qed.

(** More fuel does not change the outcome of a call that finishes. *)
Lemma distanceToRoot_fuel_mono (fuel fuel' : nat) (a : Album)
    (q : list Album) (r : outcome nat) :
  distanceToRoot fuel a q = Some r -> fuel <= fuel' ->
  distanceToRoot fuel' a q = Some r.
Proof.
  revert fuel' a r.
  induction fuel as [|fuel IH]; intros fuel' a r H Hle; [discriminate|].
  destruct fuel' as [|fuel']; [lia|].
  cbn [distanceToRoot] in *.
  destruct (strictEq (parentAlbumUUID a) ""); [exact H|].
  destruct (findByUUID (parentAlbumUUID a) q) as [p|]; [|exact H].
  destruct (distanceToRoot fuel p q) as [r'|] eqn:E; [|discriminate].
  rewrite (IH fuel' p r' E) by lia. exact H.
Qed.

Lemma distanceToRoot_returns_unique (a : Album) (q : list Album)
    (r r' : outcome nat) :
  distanceToRoot_returns a q r -> distanceToRoot_returns a q r' -> r = r'.
Proof.
  intros [f H] [f' H'].
  apply (distanceToRoot_fuel_mono f (f + f')) in H; [|lia].
  apply (distanceToRoot_fuel_mono f' (f + f')) in H'; [|lia].
  congruence.
Qed.

(** C2. [distanceToRoot] is 0 for an album with an empty parent uuid;
    for an album with a non-empty parent uuid carried by some album of
    the queue it is one more than the distance of the album that [find]
    returns for that uuid (an error of that call is passed on); for an
    album with a non-empty parent uuid that no album of the queue
    carries it throws NO_DISTANCE_TO_ROOT. *)
Theorem distanceToRoot_cases (a : Album) (q : list Album) :
  (parentAlbumUUID a = "" ->
     forall fuel, distanceToRoot (S fuel) a q = Some (Return 0))
  /\ (parentAlbumUUID a <> "" ->
      (exists b, In b q /\ uuid b = parentAlbumUUID a) ->
      exists p,
        findByUUID (parentAlbumUUID a) q = Some p
        /\ In p q /\ uuid p = parentAlbumUUID a
        /\ (forall fuel,
              distanceToRoot (S fuel) a q = plusOne (distanceToRoot fuel p q))
        /\ (forall n, distanceToRoot_returns p q (Return n) ->
                      distanceToRoot_returns a q (Return (n + 1)))
        /\ (forall e, distanceToRoot_returns p q (Throw e) ->
                      distanceToRoot_returns a q (Throw e)))
  /\ (parentAlbumUUID a <> "" ->
      (forall b, In b q -> uuid b <> parentAlbumUUID a) ->
      forall fuel,
        distanceToRoot (S fuel) a q = Some (Throw NO_DISTANCE_TO_ROOT)).
Proof.
  split; [|split].
  - intros E fuel. now apply distanceToRoot_root.
  - intros Hne Hex.
    destruct (findByUUID_is_Some _ _ Hex) as [p Hp].
    exists p. destruct (findByUUID_Some _ _ _ Hp) as [Hin Hid].
    repeat (split; [assumption|]).
    split; [|split].
    + intros fuel. now apply distanceToRoot_step.
    + intros n [fuel H]. exists (S fuel).
      rewrite (distanceToRoot_step fuel a p q Hne Hp), H. reflexivity.
    + intros e [fuel H]. exists (S fuel).
      rewrite (distanceToRoot_step fuel a p q Hne Hp), H. reflexivity.
  - intros Hne Hnone fuel. apply distanceToRoot_gap; [exact Hne|].
    now apply findByUUID_None.
Qed.

Lemma distanceToRoot_cases_witness :
  let folder := newAlbum "f" FOLDER "Trips" "" in
  let child := newAlbum "c" ALBUM "Sea" "f" in
  let orphan := newAlbum "o" ALBUM "Lost" "zz" in
  let q := [folder; child] in
  distanceToRoot 1 folder q = Some (Return 0)
  /\ distanceToRoot 2 child q = Some (Return 1)
  /\ distanceToRoot 1 orphan q = Some (Throw NO_DISTANCE_TO_ROOT).
Proof.
  intros folder child orphan q. split; [|split].
  - apply (proj1 (distanceToRoot_cases folder q)). reflexivity.
  - destruct (proj1 (proj2 (distanceToRoot_cases child q)))
      as (p & Hfind & _ & _ & Hstep & _).
    + discriminate.
    + exists folder. split; [left; reflexivity | reflexivity].
    + assert (Hp : p = folder).
      { vm_compute in Hfind. injection Hfind as Hp. exact (eq_sym Hp). }
      rewrite (Hstep 1), Hp. reflexivity.
  - apply (proj2 (proj2 (distanceToRoot_cases orphan q))).
    + discriminate.
    + intros b [<-|[<-|[]]]; discriminate.
Defined.

(** The second case of C2 needs the parent uuid to be non-empty. With
    the root album, whose uuid is empty, in the queue, an album with an
    empty parent uuid has its parent uuid carried by the root album;
    both distances are 0, and the distance of the album is not 0 + 1. *)
Lemma distanceToRoot_empty_parent_counterexample :
  let a := newAlbum "a1" ALBUM "Holidays" "" in
  let q := [getRootAlbum] in
  (exists b, In b q /\ uuid b = parentAlbumUUID a)
  /\ findByUUID (parentAlbumUUID a) q = Some getRootAlbum
  /\ distanceToRoot_returns getRootAlbum q (Return 0)
  /\ distanceToRoot_returns a q (Return 0)
  /\ ~ distanceToRoot_returns a q (Return (0 + 1)).
Proof.
  intros a q.
  assert (Ha : distanceToRoot_returns a q (Return 0)) by (now exists 1).
  split; [exists getRootAlbum; split; [left|]; reflexivity|].
  split; [reflexivity|]. split; [now exists 1|]. split; [exact Ha|].
  intros H. pose proof (distanceToRoot_returns_unique _ _ _ _ Ha H).
  discriminate.
Qed.

Lemma hasAncestor_root (fuel : nat) (a p : Album) (q : list Album) :
  parentAlbumUUID a = "" -> hasAncestor (S fuel) a p q = Some false.
Proof. intros E. simpl. now rewrite (proj2 (strictEq_true_iff _ _) E). Qed.

Lemma hasAncestor_parent (fuel : nat) (a p : Album) (q : list Album) :
  parentAlbumUUID a <> "" -> uuid p = parentAlbumUUID a ->
  hasAncestor (S fuel) a p q = Some true.
Proof.
  intros Hne E. cbn [hasAncestor]. unfold getUUID.
  now rewrite (proj2 (strictEq_false_iff _ _) Hne),
    (proj2 (strictEq_true_iff _ _) E).
Qed.

Lemma hasAncestor_step (fuel : nat) (a p b : Album) (q : list Album) :
  parentAlbumUUID a <> "" -> uuid p <> parentAlbumUUID a ->
  findByUUID (parentAlbumUUID a) q = Some b ->
  hasAncestor (S fuel) a p q = hasAncestor fuel b p q.
Proof.
  intros Hne Hp Hfind. cbn [hasAncestor]. unfold getUUID.
  now rewrite (proj2 (strictEq_false_iff _ _) Hne),
    (proj2 (strictEq_false_iff _ _) Hp), Hfind.
Qed.

Lemma hasAncestor_gap (fuel : nat) (a p : Album) (q : list Album) :
  parentAlbumUUID a <> "" -> uuid p <> parentAlbumUUID a ->
  findByUUID (parentAlbumUUID a) q = None ->
  hasAncestor (S fuel) a p q = Some false.
Proof.
  intros Hne Hp Hfind. cbn [hasAncestor]. unfold getUUID.
  now rewrite (proj2 (strictEq_false_iff _ _) Hne),
    (proj2 (strictEq_false_iff _ _) Hp), Hfind.
Qed.

Lemma reachesGap_never_true (p : Album) (q : list Album) (a : Album) :
  reachesGap p q a -> forall fuel, hasAncestor fuel a p q <> Some true.
Proof.
  induction 1 as [a Hne Hp Hfind | a b Hne Hp Hfind _ IH];
    intros [|fuel]; try discriminate.
  - now rewrite hasAncestor_gap.
  - rewrite (hasAncestor_step fuel a p b q Hne Hp Hfind). apply IH.
Qed.

Lemma reachesGap_returns_false (p : Album) (q : list Album) (a : Album) :
  reachesGap p q a ->
  exists fuel, forall fuel', fuel <= fuel' ->
                             hasAncestor fuel' a p q = Some false.
Proof.
  induction 1 as [a Hne Hp Hfind | a b Hne Hp Hfind _ [fuel IH]].
  - exists 1. intros [|fuel'] Hle; [lia|]. now apply hasAncestor_gap.
  - exists (S fuel). intros [|fuel'] Hle; [lia|].
    rewrite (hasAncestor_step fuel' a p b q Hne Hp Hfind).
    apply IH. lia.
Qed.

(** C4. [hasAncestor] is false for an album with an empty parent uuid,
    true for an album whose non-empty parent uuid is the uuid of the
    candidate, and false whenever the parent chain comes to a uuid that
    no album of the queue carries before it meets the candidate: such a
    chain is never reported as ancestry. *)
Theorem hasAncestor_cases (a p : Album) (q : list Album) :
  (parentAlbumUUID a = "" ->
     forall fuel, hasAncestor (S fuel) a p q = Some false)
  /\ (parentAlbumUUID a <> "" -> uuid p = parentAlbumUUID a ->
      forall fuel, hasAncestor (S fuel) a p q = Some true)
  /\ (reachesGap p q a ->
      (exists fuel, forall fuel', fuel <= fuel' ->
                                 hasAncestor fuel' a p q = Some false)
      /\ forall fuel, hasAncestor fuel a p q <> Some true).
Proof.
  split; [|split].
  - intros E fuel. now apply hasAncestor_root.
  - intros Hne E fuel. now apply hasAncestor_parent.
  - intros G. split; [now apply reachesGap_returns_false|].
    now apply reachesGap_never_true.
Qed.

Lemma hasAncestor_cases_witness :
  let folder := newAlbum "f" FOLDER "Trips" "" in
  let child := newAlbum "c" ALBUM "Sea" "f" in
  let stray := newAlbum "s" ALBUM "Stray" "zz" in
  let leaf := newAlbum "l" ALBUM "Leaf" "s" in
  let q := [folder; child; stray; leaf] in
  hasAncestor 1 folder child q = Some false
  /\ hasAncestor 1 child folder q = Some true
  /\ reachesGap folder q leaf
  /\ forall fuel, hasAncestor fuel leaf folder q <> Some true.
Proof.
  intros folder child stray leaf q.
  assert (G : reachesGap folder q leaf).
  { apply (gap_above folder q leaf stray);
      [discriminate | discriminate | reflexivity |].
    apply gap_here; [discriminate | discriminate | reflexivity]. }
  split; [|split; [|split]].
  - apply (proj1 (hasAncestor_cases folder child q)). reflexivity.
  - apply (proj1 (proj2 (hasAncestor_cases child folder q)));
      [discriminate | reflexivity].
  - exact G.
  - exact (proj2 (proj2 (proj2 (hasAncestor_cases leaf folder q)) G)).
Defined.

(** The second case of C4 needs the parent uuid to be non-empty. For an
    album with an empty parent uuid and the root album as candidate, the
    uuid of the candidate is the parent uuid of the album, and the call
    returns false, never true. *)
Lemma hasAncestor_empty_parent_counterexample :
  let a := newAlbum "a1" ALBUM "Holidays" "" in
  let q := [getRootAlbum; a] in
  uuid getRootAlbum = parentAlbumUUID a
  /\ hasAncestor 1 a getRootAlbum q = Some false
  /\ ~ hasAncestor_returns a getRootAlbum q true.
Proof.
  intros a q. split; [reflexivity|]. split; [reflexivity|].
  intros [[|fuel] H]; [discriminate|].
  rewrite hasAncestor_root in H by reflexivity. discriminate.
Qed.

Lemma parentIn_Some (q : list Album) (b p : Album) :
  parentIn q b = Some p <->
  parentAlbumUUID b <> "" /\ findByUUID (parentAlbumUUID b) q = Some p.
Proof.
  unfold parentIn.
  destruct (strictEq (parentAlbumUUID b) "") eqn:E.
  - apply strictEq_true_iff in E. split; [discriminate | tauto].
  - apply strictEq_false_iff in E. tauto.
Qed.

Lemma distanceToRoot_terminates (depth : Album -> nat) (q : list Album)
    (a : Album) :
  depthDecreases depth q a ->
  forall n b, In b (a :: q) -> depth b <= n ->
              exists r, distanceToRoot (S n) b q = Some r.
Proof.
  intros Hdec. induction n as [|n IH]; intros b Hb Hn.
  - destruct (String.eqb_spec (parentAlbumUUID b) "") as [E|Hne].
    + eexists. now apply distanceToRoot_root.
    + destruct (findByUUID (parentAlbumUUID b) q) as [p|] eqn:Hfind.
      * assert (depth p < depth b)
          by (apply Hdec; [exact Hb | now apply parentIn_Some]).
        lia.
      * eexists. now apply distanceToRoot_gap.
  - destruct (String.eqb_spec (parentAlbumUUID b) "") as [E|Hne].
    + eexists. now apply distanceToRoot_root.
    + destruct (findByUUID (parentAlbumUUID b) q) as [p|] eqn:Hfind.
      * assert (depth p < depth b)
          by (apply Hdec; [exact Hb | now apply parentIn_Some]).
        destruct (IH p) as [r Hr].
        { right. now apply findByUUID_Some in Hfind. }
        { lia. }
        rewrite (distanceToRoot_step (S n) b p q Hne Hfind), Hr.
        destruct r; eexists; reflexivity.
      * eexists. now apply distanceToRoot_gap.
Qed.

Lemma hasAncestor_terminates (depth : Album -> nat) (q : list Album)
    (a c : Album) :
  depthDecreases depth q a ->
  forall n b, In b (a :: q) -> depth b <= n ->
              exists r, hasAncestor (S n) b c q = Some r.
Proof.
  intros Hdec. induction n as [|n IH]; intros b Hb Hn.
  - destruct (String.eqb_spec (parentAlbumUUID b) "") as [E|Hne].
    + eexists. now apply hasAncestor_root.
    + destruct (String.eqb_spec (uuid c) (parentAlbumUUID b)) as [Ec|Hc].
      * eexists. now apply hasAncestor_parent.
      * destruct (findByUUID (parentAlbumUUID b) q) as [p|] eqn:Hfind.
        -- assert (depth p < depth b)
             by (apply Hdec; [exact Hb | now apply parentIn_Some]).
           lia.
        -- eexists. now apply hasAncestor_gap.
  - destruct (String.eqb_spec (parentAlbumUUID b) "") as [E|Hne].
    + eexists. now apply hasAncestor_root.
    + destruct (String.eqb_spec (uuid c) (parentAlbumUUID b)) as [Ec|Hc].
      * eexists. now apply hasAncestor_parent.
      * destruct (findByUUID (parentAlbumUUID b) q) as [p|] eqn:Hfind.
        -- assert (depth p < depth b)
             by (apply Hdec; [exact Hb | now apply parentIn_Some]).
           rewrite (hasAncestor_step (S n) b c p q Hne Hc Hfind).
           apply IH; [|lia].
           right. now apply findByUUID_Some in Hfind.
        -- eexists. now apply hasAncestor_gap.
Qed.

(** C3. On a queue whose parent links have no cycle (some depth goes
    down along every link followed from the album or from an album of
    the queue) [distanceToRoot] and [hasAncestor] finish, within one
    call more than the depth of the album. *)
Theorem walks_terminate_without_cycle (depth : Album -> nat)
    (q : list Album) (a : Album) :
  depthDecreases depth q a ->
  (exists r, distanceToRoot (S (depth a)) a q = Some r)
  /\ (forall c, exists r, hasAncestor (S (depth a)) a c q = Some r).
Proof.
  intros Hdec. split.
  - apply (distanceToRoot_terminates depth q a Hdec); [now left | lia].
  - intros c.
    apply (hasAncestor_terminates depth q a c Hdec); [now left | lia].
Qed.

Lemma walks_terminate_without_cycle_witness :
  let folder := newAlbum "f" FOLDER "Trips" "" in
  let child := newAlbum "c" ALBUM "Sea" "f" in
  let q := [folder; child] in
  let depth := fun b : Album =>
                 if strictEq (parentAlbumUUID b) "" then 0 else 1 in
  depthDecreases depth q child
  /\ (exists r, distanceToRoot 2 child q = Some r)
  /\ (forall c, exists r, hasAncestor 2 child c q = Some r).
Proof.
  intros folder child q depth.
  assert (Hdec : depthDecreases depth q child).
  { intros b p [<-|[<-|[<-|[]]]] Hp; vm_compute in Hp;
      try discriminate; injection Hp as <-; vm_compute; lia. }
  split; [exact Hdec|].
  exact (walks_terminate_without_cycle depth q child Hdec).
Defined.

Lemma cycle_distanceToRoot_diverges (fuel : nat) :
  let a := newAlbum "a" FOLDER "A" "b" in
  let b := newAlbum "b" FOLDER "B" "a" in
  distanceToRoot fuel a [a; b] = None /\ distanceToRoot fuel b [a; b] = None.
Proof.
  intros a b. induction fuel as [|fuel [IHa IHb]]; [split; reflexivity|].
  split.
  - rewrite (distanceToRoot_step fuel a b [a; b]);
      [now rewrite IHb | discriminate | reflexivity].
  - rewrite (distanceToRoot_step fuel b a [a; b]);
      [now rewrite IHa | discriminate | reflexivity].
Qed.

Lemma cycle_hasAncestor_diverges (fuel : nat) :
  let a := newAlbum "a" FOLDER "A" "b" in
  let b := newAlbum "b" FOLDER "B" "a" in
  let c := newAlbum "c" FOLDER "C" "" in
  hasAncestor fuel a c [a; b] = None /\ hasAncestor fuel b c [a; b] = None.
Proof.
  intros a b c. induction fuel as [|fuel [IHa IHb]]; [split; reflexivity|].
  split.
  - rewrite (hasAncestor_step fuel a c b [a; b]);
      [exact IHb | discriminate | discriminate | reflexivity].
  - rewrite (hasAncestor_step fuel b c a [a; b]);
      [exact IHa | discriminate | discriminate | reflexivity].
Qed.

(** C3 needs the parent links to be free of cycles. On a queue of two
    folders that are the parent of each other no visited set stops the
    walk, and neither [distanceToRoot] nor [hasAncestor] finishes,
    whatever the fuel. *)
Lemma walks_diverge_on_cycle_counterexample :
  let a := newAlbum "a" FOLDER "A" "b" in
  let b := newAlbum "b" FOLDER "B" "a" in
  let c := newAlbum "c" FOLDER "C" "" in
  parentIn [a; b] a = Some b /\ parentIn [a; b] b = Some a
  /\ ~ (exists r, distanceToRoot_returns a [a; b] r)
  /\ ~ (exists r, hasAncestor_returns a c [a; b] r).
Proof.
  intros a b c. split; [reflexivity|]. split; [reflexivity|]. split.
  - intros [r [fuel H]].
    pose proof (proj1 (cycle_distanceToRoot_diverges fuel)) as D.
    cbv zeta in D. fold a b in D. congruence.
  - intros [r [fuel H]].
    pose proof (proj1 (cycle_hasAncestor_diverges fuel)) as D.
    cbv zeta in D. fold a b c in D. congruence.
Qed.

End HierarchyFacts.

(* ================================================================== *)
(** ** Session steps and page size *)
(* ================================================================== *)

Section SessionFacts.
Import ICloud.

Lemma fail_frame (e : SessionError) (s : Session) :
  state (fail e s) = FAILED
  /\ trustTokenFile (fail e s) = trustTokenFile s
  /\ photos (fail e s) = photos s
  /\ (ready s = Pending -> ready (fail e s) = Rejected e).
Proof.
  repeat split. intros E. cbn [fail ready]. now rewrite E.
Qed.

(** C5. A call of [getTokens] that ends in a network error or in a
    status other than 200 fails the pending session with
    TokenAcquisitionFailed and leaves the trust-token file as it was; a
    200 answer that carries a trust token leaves exactly that token in
    the file. *)
Theorem getTokens_trust_token_file (s : Session) :
  ready s = Pending ->
  (ready (getTokens NetworkError s) = Rejected TokenAcquisitionFailed
   /\ state (getTokens NetworkError s) = FAILED
   /\ trustTokenFile (getTokens NetworkError s) = trustTokenFile s)
  /\ (forall status headers, status <> 200%Z ->
      let s' := getTokens (Response status headers) s in
      ready s' = Rejected TokenAcquisitionFailed
      /\ state s' = FAILED
      /\ trustTokenFile s' = trustTokenFile s)
  /\ (forall newSession newTrust,
      let s' := getTokens (Response 200 {| sessionTokenHeader := newSession;
                                           trustTokenHeader := Some newTrust |}) s
      in
      trustTokenFile s' = Some newTrust
      /\ trustToken s' = newTrust
      /\ state s' = TRUSTED
      /\ ready s' = Pending).
Proof.
  intros Hready.
  destruct (fail_frame TokenAcquisitionFailed s) as (Hst & Hfile & _ & Hrej).
  split; [|split].
  - cbn [getTokens]. auto.
  - intros status headers Hne. cbn zeta. cbn [getTokens].
    rewrite (proj2 (Z.eqb_neq status 200) Hne). auto.
  - intros newSession newTrust. cbn. auto.
Qed.

Lemma getTokens_trust_token_file_witness :
  let s := authenticated "session-1" "trust-old" (Some "trust-old") in
  ready s = Pending
  /\ trustTokenFile (getTokens NetworkError s) = Some "trust-old"
  /\ trustTokenFile (getTokens (Response 500 {| sessionTokenHeader := None;
                                                 trustTokenHeader := None |}) s)
     = Some "trust-old"
  /\ ready (getTokens (Response 500 {| sessionTokenHeader := None;
                                        trustTokenHeader := None |}) s)
     = Rejected TokenAcquisitionFailed
  /\ trustTokenFile
       (getTokens (Response 200 {| sessionTokenHeader := Some "session-1";
                                   trustTokenHeader := Some "trust-new" |}) s)
     = Some "trust-new".
Proof.
  intros s.
  assert (Hready : ready s = Pending) by reflexivity.
  destruct (getTokens_trust_token_file s Hready) as (Hnet & Hbad & Hok).
  split; [exact Hready|].
  split; [exact (proj2 (proj2 Hnet))|].
  assert (H500 : 500%Z <> 200%Z) by discriminate.
  split; [exact (proj2 (proj2 (Hbad 500%Z _ H500)))|].
  split; [exact (proj1 (Hbad 500%Z _ H500))|].
  exact (proj1 (Hok (Some "session-1") "trust-new")).
Defined.

Lemma liveCookies_all_expired (now : Z) (cs : list Cookie) :
  Forall (fun c => expired now c = true) cs -> liveCookies now cs = [].
Proof.
  induction 1 as [|c cs Hc _ IH]; [reflexivity|].
  unfold liveCookies. cbn [List.filter]. rewrite Hc. exact IH.
Qed.

(** C6. An answer of the account setup whose cookie set is empty, or
    whose cookies have all expired, fails the pending session with
    AccountSetupFailed, as the same answer without any cookie does; the
    readiness signal is rejected and the photo-library component is the
    one, if any, that was there before. *)
Theorem setupAccount_expired_cookies
    (now status : Z) (payload : SetupPayload) (s : Session) :
  ready s = Pending ->
  Forall (fun c => expired now c = true) (setCookie payload) ->
  let s' := setupAccount now (Response status payload) s in
  s' = setupAccount now
         (Response status {| setCookie := [];
                             photosServiceUrl := photosServiceUrl payload |}) s
  /\ ready s' = Rejected AccountSetupFailed
  /\ state s' = FAILED
  /\ photos s' = photos s
  /\ (photos s = None -> photos s' = None).
Proof.
  intros Hready Hexp. cbn zeta.
  destruct (fail_frame AccountSetupFailed s) as (Hst & _ & Hph & Hrej).
  assert (E : setupAccount now (Response status payload) s
              = fail AccountSetupFailed s).
  { cbn [setupAccount]. rewrite (liveCookies_all_expired _ _ Hexp).
    now destruct (status =? 200)%Z. }
  rewrite E. split.
  - cbn [setupAccount setCookie liveCookies List.filter].
    now destruct (status =? 200)%Z.
  - split; [now apply Hrej|]. split; [exact Hst|]. split; [exact Hph|].
    intros Hnone. now rewrite Hph.
Qed.

Lemma setupAccount_expired_cookies_witness :
  let s := {| state := TRUSTED; ready := Pending;
              sessionToken := "session-1"; trustToken := "trust-1";
              trustTokenFile := Some "trust-1";
              cookies := []; photos := None |} in
  let payload :=
    {| setCookie := [ {| cookieName := "X-APPLE-WEBAUTH-USER";
                         cookieValue := "v1"; expires := Some 1000%Z |};
                      {| cookieName := "X-APPLE-WEBAUTH-TOKEN";
                         cookieValue := "v2"; expires := Some 2000%Z |} ];
       photosServiceUrl := Some "https://p00-ckdatabasews.icloud.com:443" |} in
  ready s = Pending
  /\ Forall (fun c => expired 5000 c = true) (setCookie payload)
  /\ ready (setupAccount 5000 (Response 200 payload) s)
     = Rejected AccountSetupFailed
  /\ photos (setupAccount 5000 (Response 200 payload) s) = None.
Proof.
  intros s payload.
  assert (Hready : ready s = Pending) by reflexivity.
  assert (Hexp : Forall (fun c => expired 5000 c = true) (setCookie payload))
    by (repeat constructor).
  destruct (setupAccount_expired_cookies 5000 200 payload s Hready Hexp)
    as (_ & Hrej & _ & _ & Hnone).
  split; [exact Hready|]. split; [exact Hexp|]. split; [exact Hrej|].
  apply Hnone. reflexivity.
Defined.

Example setupAccount_live_cookie :
  let s := {| state := TRUSTED; ready := Pending;
              sessionToken := "session-1"; trustToken := "trust-1";
              trustTokenFile := Some "trust-1";
              cookies := []; photos := None |} in
  let payload :=
    {| setCookie := [ {| cookieName := "X-APPLE-WEBAUTH-USER";
                         cookieValue := "v1"; expires := Some 9000%Z |} ];
       photosServiceUrl := Some "https://p00-ckdatabasews.icloud.com:443" |} in
  state (setupAccount 5000 (Response 200 payload) s) = ACCOUNT_READY
  /\ photos (setupAccount 5000 (Response 200 payload) s)
     = Some {| serviceUrl := "https://p00-ckdatabasews.icloud.com:443" |}.
Proof. split; reflexivity. Qed.

End SessionFacts.

Section PageSizeFacts.
Import ICloudPhotos.

Lemma sweep_requests_limit {R : Type} (pages : nat)
    (service : PageRequest -> Page R) (marker : Z) :
  Forall (fun request => resultsLimit request = MAX_RECORDS_LIMIT)
         (fst (sweep pages service marker)).
Proof.
  revert marker. induction pages as [|pages IH]; intros marker.
  - constructor.
  - cbn [sweep]. destruct (isFinalPage _).
    + repeat constructor.
    + specialize (IH (marker + Z.of_nat (length (records
        (service {| continuation := marker;
                    resultsLimit := MAX_RECORDS_LIMIT |}))))%Z).
      destruct (sweep pages service _) as [requests rest].
      constructor; [reflexivity | exact IH].
Qed.

(** C8. The page size is 198: below 200 and a multiple of both 2 and 3,
    so that thirds and halves of a page are whole numbers of records;
    no request of a sweep asks for more than one page of records. *)
Theorem MAX_RECORDS_LIMIT_page_size :
  MAX_RECORDS_LIMIT = 198%Z
  /\ (MAX_RECORDS_LIMIT < 200)%Z
  /\ (MAX_RECORDS_LIMIT mod PICTURE_DIVISOR = 0)%Z
  /\ (MAX_RECORDS_LIMIT mod ALBUM_DIVISOR = 0)%Z
  /\ (ALBUM_DIVISOR * (MAX_RECORDS_LIMIT / ALBUM_DIVISOR)
      = MAX_RECORDS_LIMIT)%Z
  /\ (PICTURE_DIVISOR * (MAX_RECORDS_LIMIT / PICTURE_DIVISOR)
      = MAX_RECORDS_LIMIT)%Z
  /\ (forall (R : Type) (pages : nat) (service : PageRequest -> Page R)
             (marker : Z),
        Forall (fun request => (resultsLimit request <= MAX_RECORDS_LIMIT)%Z)
               (fst (sweep pages service marker))).
Proof.
  repeat (split; [reflexivity|]).
  intros R pages service marker.
  eapply List.Forall_impl; [|apply sweep_requests_limit].
  intros request ->. reflexivity.
Qed.

End PageSizeFacts.

(* ================================================================== *)
(** ** Album: equality as a relation *)
(* ================================================================== *)

Section EqualityFacts.
Import JS PhotosLibrary AlbumSource.

Lemma strictEq_sym (s t : string) : strictEq s t = strictEq t s.
Proof. apply String.eqb_sym. Qed.

Lemma albumTypeEq_sym (t1 t2 : AlbumType) :
  albumTypeEq t1 t2 = albumTypeEq t2 t1.
Proof. unfold albumTypeEq. apply Z.eqb_sym. Qed.

Lemma assetsEqual_sym (a b : Album) :
  assetsEqual a (assets b) = assetsEqual b (assets a).
Proof. unfold assetsEqual. apply strictEq_sym. Qed.

(** [equal] on two albums, as a proposition. *)
Lemma equal_true_iff (a b : Album) :
  equal a (present b) = VBool true <->
  uuid a = uuid b
  /\ getSanitizedFilename a = getSanitizedFilename b
  /\ parentAlbumUUID a = parentAlbumUUID b
  /\ (albumType a = ARCHIVED \/ albumType b = ARCHIVED
      \/ (assetIds a ≡ₚ assetIds b /\ albumType a = albumType b)).
Proof.
  unfold equal, andAlso. split.
  - intros E. injection E as E.
    rewrite !andb_true_iff, !orb_true_iff, andb_true_iff in E.
    rewrite !strictEq_true_iff, !albumTypeEq_true_iff in E.
    rewrite assetsEqual_true_iff in E. tauto.
  - intros H. f_equal.
    rewrite !andb_true_iff, !orb_true_iff, andb_true_iff.
    rewrite !strictEq_true_iff, !albumTypeEq_true_iff.
    rewrite assetsEqual_true_iff. tauto.
Qed.

(** X1. [equal] is reflexive and symmetric: an album equals itself, and
    [a.equal(b)] and [b.equal(a)] are the same boolean. *)
Theorem equal_refl_sym (a b : Album) :
  equal a (present a) = VBool true
  /\ equal a (present b) = equal b (present a).
Proof.
  split.
  - apply equal_true_iff. repeat (split; [reflexivity|]).
    right. right. split; reflexivity.
  - unfold equal, andAlso. f_equal.
    rewrite (strictEq_sym (uuid a)), (strictEq_sym (getSanitizedFilename a)),
      (strictEq_sym (parentAlbumUUID a)), (assetsEqual_sym a b),
      (albumTypeEq_sym (albumType a) (albumType b)).
    f_equal.
    destruct (albumTypeEq (albumType a) ARCHIVED),
      (albumTypeEq (albumType b) ARCHIVED); reflexivity.
Qed.

(** X2. [equal] is transitive through an album that is not ARCHIVED. *)
Theorem equal_trans_not_archived (a b c : Album) :
  albumType b <> ARCHIVED ->
  equal a (present b) = VBool true ->
  equal b (present c) = VBool true ->
  equal a (present c) = VBool true.
Proof.
  intros Hb Hab Hbc.
  apply equal_true_iff in Hab as (Hu1 & Hn1 & Hp1 & H1).
  apply equal_true_iff in Hbc as (Hu2 & Hn2 & Hp2 & H2).
  apply equal_true_iff.
  split; [congruence|]. split; [congruence|]. split; [congruence|].
  destruct H1 as [Ha|[Hb'|[P1 T1]]]; [tauto | tauto |].
  destruct H2 as [Hb'|[Hc|[P2 T2]]]; [tauto | tauto |].
  right. right. split; [now rewrite P1 | congruence].
Qed.

Lemma equal_trans_not_archived_witness :
  let a := withAssets (newAlbum "u1" ALBUM "A/1" "p")
             (present [("x", "1"); ("y", "2")]) in
  let b := withAssets (newAlbum "u1" ALBUM "A_1" "p")
             (present [("y", "2"); ("x", "1")]) in
  let c := withAssets (newAlbum "u1" ALBUM "A/1" "p")
             (present [("y", "3"); ("x", "4")]) in
  albumType b <> ARCHIVED
  /\ equal a (present b) = VBool true
  /\ equal b (present c) = VBool true
  /\ equal a (present c) = VBool true.
Proof.
  intros a b c.
  assert (Hb : albumType b <> ARCHIVED) by discriminate.
  assert (Hab : equal a (present b) = VBool true) by (vm_compute; reflexivity).
  assert (Hbc : equal b (present c) = VBool true) by (vm_compute; reflexivity).
  split; [exact Hb|]. split; [exact Hab|]. split; [exact Hbc|].
  exact (equal_trans_not_archived a b c Hb Hab Hbc).
Defined.

(** X3. Through an ARCHIVED album transitivity is lost: two albums with
    the same uuid, sanitized name and parent that are not equal are both
    equal to the archived variant of the first. *)
Theorem equal_archived_between (a c : Album) :
  uuid a = uuid c ->
  getSanitizedFilename a = getSanitizedFilename c ->
  parentAlbumUUID a = parentAlbumUUID c ->
  equal a (present (withType a ARCHIVED)) = VBool true
  /\ equal (withType a ARCHIVED) (present c) = VBool true.
Proof.
  intros Hu Hn Hp. split; apply equal_true_iff.
  - repeat (split; [reflexivity|]). right. left. reflexivity.
  - split; [exact Hu|]. split; [exact Hn|]. split; [exact Hp|].
    left. reflexivity.
Qed.

Lemma equal_archived_between_witness :
  let a := withAssets (newAlbum "u1" ALBUM "A" "p") (present [("x", "1")]) in
  let c := withAssets (newAlbum "u1" FOLDER "A" "p") (present [("y", "2")]) in
  equal a (present c) = VBool false
  /\ equal a (present (withType a ARCHIVED)) = VBool true
  /\ equal (withType a ARCHIVED) (present c) = VBool true.
Proof.
  intros a c. split; [vm_compute; reflexivity|].
  apply (equal_archived_between a c); reflexivity.
Defined.

(** X4. [equal] reads the assets through their keys only: with other
    presented filenames, or the keys in another order, on either side,
    the result is the same. *)
Theorem equal_keys_only (a b : Album) (oa ob : AlbumAssets) :
  objectKeys oa ≡ₚ assetIds a ->
  objectKeys ob ≡ₚ assetIds b ->
  equal (withAssets a (present oa)) (present (withAssets b (present ob)))
  = equal a (present b).
Proof.
  intros Ha Hb. unfold equal, andAlso.
  cbn [withAssets uuid albumType parentAlbumUUID assets
       getSanitizedFilename albumName].
  assert (E : assetsEqual (withAssets a (present oa)) (present ob)
              = assetsEqual a (assets b)).
  { unfold assetsEqual, assetIds in *. cbn [withAssets assets orElse].
    rewrite (proj2 (sort_eq_iff_Permutation _ _) Ha).
    rewrite (proj2 (sort_eq_iff_Permutation _ _) Hb). reflexivity. }
  now rewrite E.
Qed.

Lemma equal_keys_only_witness :
  let a := withAssets (newAlbum "u1" ALBUM "A" "p")
             (present [("x", "IMG_1.jpeg"); ("y", "IMG_2.jpeg")]) in
  let b := withAssets (newAlbum "u1" ALBUM "A" "p")
             (present [("x", "IMG_1.jpeg"); ("y", "IMG_2.jpeg")]) in
  let oa := [("y", "renamed.jpeg"); ("x", "other.jpeg")] in
  objectKeys oa ≡ₚ assetIds a
  /\ equal (withAssets a (present oa)) (present b) = VBool true.
Proof.
  intros a b oa.
  assert (Ha : objectKeys oa ≡ₚ assetIds a) by apply Permutation_swap.
  split; [exact Ha|].
  refine (eq_trans
    (equal_keys_only a b oa [("x", "IMG_1.jpeg"); ("y", "IMG_2.jpeg")]
       Ha (Permutation_refl _)) _).
  vm_compute. reflexivity.
Defined.

(** X5. Sanitizing is idempotent, leaves a name without slash as it is,
    and an album renamed to its sanitized name is still [equal] to the
    original. *)
Theorem getSanitizedFilename_idempotent (a : Album) :
  getSanitizedFilename (withName a (getSanitizedFilename a))
  = getSanitizedFilename a
  /\ ((forall i, String.get i (albumName a) <> Some SLASH) ->
      getSanitizedFilename a = albumName a)
  /\ equal a (present (withName a (getSanitizedFilename a))) = VBool true.
Proof.
  assert (Hidem : forall s, replaceAll SLASH UNDERSCORE
                              (replaceAll SLASH UNDERSCORE s)
                            = replaceAll SLASH UNDERSCORE s).
  { induction s as [|c s IH]; [reflexivity|]. cbn [replaceAll].
    rewrite IH. f_equal.
    destruct (Ascii.eqb_spec c SLASH) as [->|Hc]; [reflexivity|].
    now rewrite (proj2 (Ascii.eqb_neq _ _) Hc). }
  split; [apply Hidem|]. split.
  - unfold getSanitizedFilename. generalize (albumName a).
    induction s as [|c s IH]; intros Hs; [reflexivity|]. cbn [replaceAll].
    rewrite IH by (intros i; apply (Hs (S i))). f_equal.
    destruct (Ascii.eqb_spec c SLASH) as [->|Hc]; [|reflexivity].
    now destruct (Hs 0).
  - apply equal_true_iff. split; [reflexivity|].
    split; [symmetry; apply Hidem|]. split; [reflexivity|].
    right. right. split; reflexivity.
Qed.

Lemma getSanitizedFilename_idempotent_witness :
  let a := newAlbum "u1" ALBUM "Trips" "" in
  (forall i, String.get i (albumName a) <> Some SLASH)
  /\ getSanitizedFilename a = albumName a.
Proof.
  intros a.
  assert (H : forall i, String.get i (albumName a) <> Some SLASH)
    by (intros [|[|[|[|[|i]]]]]; discriminate).
  split; [exact H|].
  exact (proj1 (proj2 (getSanitizedFilename_idempotent a)) H).
Defined.

End EqualityFacts.

(* ================================================================== *)
(** ** Album: apply on the store *)
(* ================================================================== *)

Section ApplyFacts.
Import JS PhotosLibrary AlbumSource.

Lemma withType_same (a : Album) : withType a (albumType a) = a.
Proof. now destruct a. Qed.

Lemma apply_present_withType (h : heap) (r l : ref) (ar al : Album) :
  h !! r = Some ar -> h !! l = Some al ->
  apply r (present l) h = Some (r, <[r := withType ar (albumType al)]> h).
Proof. intros Hr Hl. exact (apply_present h r l ar al Hr Hl). Qed.

(** X6. After [r.apply(l)] the album types no longer tell [r] and [l]
    apart: [r.equal(l)] holds exactly when uuid, sanitized name and
    parent agree and [l] is ARCHIVED or the asset keys agree. *)
Theorem apply_then_equal (h : heap) (r l : ref) (ar al : Album) :
  h !! r = Some ar -> h !! l = Some al ->
  exists (h' : heap) (ar' al' : Album),
    apply r (present l) h = Some (r, h')
    /\ h' !! r = Some ar' /\ h' !! l = Some al'
    /\ (equal ar' (present al') = VBool true <->
          uuid ar = uuid al
          /\ getSanitizedFilename ar = getSanitizedFilename al
          /\ parentAlbumUUID ar = parentAlbumUUID al
          /\ (albumType al = ARCHIVED \/ assetIds ar ≡ₚ assetIds al)).
Proof.
  intros Hr Hl.
  exists (<[r := withType ar (albumType al)]> h), (withType ar (albumType al)).
  destruct (decide (l = r)) as [->|Hne].
  - exists (withType ar (albumType al)).
    split; [now apply apply_present_withType|].
    split; [apply lookup_insert_eq|]. split; [apply lookup_insert_eq|].
    assert (al = ar) by congruence. subst al.
    rewrite equal_true_iff. cbn [withType albumType]. unfold assetIds.
    cbn [withType assets]. intuition.
  - exists al.
    split; [now apply apply_present_withType|].
    split; [apply lookup_insert_eq|].
    split; [now rewrite lookup_insert_ne|].
    rewrite equal_true_iff. unfold assetIds, getSanitizedFilename.
    cbn [withType albumType assets uuid parentAlbumUUID albumName].
    intuition.
Qed.

Lemma apply_then_equal_witness :
  let remote := withAssets (newAlbum "u1" ALBUM "A" "p")
                  (present [("x", "1")]) in
  let localAlbum := withAssets (newAlbum "u1" ARCHIVED "A" "p")
                      (present [("y", "2")]) in
  let h : heap := {[ 1%positive := remote; 2%positive := localAlbum ]} in
  h !! 1%positive = Some remote /\ h !! 2%positive = Some localAlbum
  /\ equal remote (present localAlbum) = VBool true
  /\ exists (h' : heap) (ar' al' : Album),
       apply 1%positive (present 2%positive) h = Some (1%positive, h')
       /\ h' !! 1%positive = Some ar' /\ h' !! 2%positive = Some al'
       /\ equal ar' (present al') = VBool true.
Proof.
  intros remote localAlbum h.
  assert (Hr : h !! 1%positive = Some remote) by reflexivity.
  assert (Hl : h !! 2%positive = Some localAlbum) by reflexivity.
  split; [exact Hr|]. split; [exact Hl|]. split; [reflexivity|].
  destruct (apply_then_equal h 1%positive 2%positive remote localAlbum Hr Hl)
    as (h' & ar' & al' & Hcall & Hr' & Hl' & Heq).
  exists h', ar', al'. repeat (split; [assumption|]).
  apply (proj2 Heq). repeat (split; [reflexivity|]). left. reflexivity.
Defined.

(** X7. [apply] is idempotent, and applying an album to itself changes
    nothing: a second [r.apply(l)] leaves the store of the first, and
    [r.apply(r)] leaves the store as it is. *)
Theorem apply_idempotent (h h' : heap) (r l : ref) (ar al : Album) :
  h !! r = Some ar -> h !! l = Some al ->
  apply r (present l) h = Some (r, h') ->
  apply r (present l) h' = Some (r, h')
  /\ apply r (present r) h = Some (r, h).
Proof.
  intros Hr Hl Hcall.
  rewrite (apply_present_withType h r l ar al Hr Hl) in Hcall.
  injection Hcall as <-.
  split.
  - assert (Hr' : (<[r := withType ar (albumType al)]> h) !! r
                  = Some (withType ar (albumType al)))
      by apply lookup_insert_eq.
    destruct (decide (l = r)) as [->|Hne].
    + rewrite (apply_present_withType _ r r _ _ Hr' Hr').
      cbn [withType albumType]. now rewrite insert_insert_eq.
    + assert (Hl' : (<[r := withType ar (albumType al)]> h) !! l = Some al)
        by now rewrite lookup_insert_ne.
      rewrite (apply_present_withType _ r l _ _ Hr' Hl').
      cbn [withType albumType]. now rewrite insert_insert_eq.
  - rewrite (apply_present_withType h r r ar ar Hr Hr).
    rewrite withType_same. now rewrite (insert_id h r ar Hr).
Qed.

Lemma apply_idempotent_witness :
  let remote := newAlbum "u1" ALBUM "A" "p" in
  let localAlbum := newAlbum "u1" FOLDER "A" "p" in
  let h : heap := {[ 1%positive := remote; 2%positive := localAlbum ]} in
  let h' : heap := <[1%positive := withType remote FOLDER]> h in
  h !! 1%positive = Some remote /\ h !! 2%positive = Some localAlbum
  /\ apply 1%positive (present 2%positive) h = Some (1%positive, h')
  /\ apply 1%positive (present 2%positive) h' = Some (1%positive, h')
  /\ apply 1%positive (present 1%positive) h = Some (1%positive, h).
Proof.
  intros remote localAlbum h h'.
  assert (Hr : h !! 1%positive = Some remote) by reflexivity.
  assert (Hl : h !! 2%positive = Some localAlbum) by reflexivity.
  assert (Hcall : apply 1%positive (present 2%positive) h
                  = Some (1%positive, h'))
    by exact (apply_present_withType h 1%positive 2%positive _ _ Hr Hl).
  split; [exact Hr|]. split; [exact Hl|]. split; [exact Hcall|].
  exact (apply_idempotent h h' 1%positive 2%positive remote localAlbum
           Hr Hl Hcall).
Defined.

End ApplyFacts.

(* ================================================================== *)
(** ** Album: distances and ancestors in a queue *)
(* ================================================================== *)

Section WalkFacts.
Import JS PhotosLibrary AlbumSource.

(** What one call of [distanceToRoot] did, read off its result. *)
Lemma distanceToRoot_S_inv (fuel : nat) (a : Album) (q : list Album)
    (r : outcome nat) :
  distanceToRoot (S fuel) a q = Some r ->
  (parentAlbumUUID a = "" /\ r = Return 0)
  \/ (parentAlbumUUID a <> ""
      /\ findByUUID (parentAlbumUUID a) q = None
      /\ r = Throw NO_DISTANCE_TO_ROOT)
  \/ (parentAlbumUUID a <> ""
      /\ exists p r',
           findByUUID (parentAlbumUUID a) q = Some p
           /\ distanceToRoot fuel p q = Some r'
           /\ r = match r' with
                  | Return n => Return (n + 1)
                  | Throw e => Throw e
                  end).
Proof.
  intros H.
  destruct (String.eqb_spec (parentAlbumUUID a) "") as [E|Hne].
  - left. rewrite distanceToRoot_root in H by exact E.
    split; [exact E | congruence].
  - right. destruct (findByUUID (parentAlbumUUID a) q) as [p|] eqn:Hfind.
    + right. split; [exact Hne|]. exists p.
      rewrite (distanceToRoot_step fuel a p q Hne Hfind) in H.
      destruct (distanceToRoot fuel p q) as [[n|e]|]; [| |discriminate].
      * exists (Return n). repeat split. cbn in H. congruence.
      * exists (Throw e). repeat split. cbn in H. congruence.
    + left. rewrite distanceToRoot_gap in H by assumption.
      repeat split; [exact Hne | congruence].
Qed.

(** What one call of [hasAncestor] did, read off its result. *)
Lemma hasAncestor_S_inv (fuel : nat) (a p : Album) (q : list Album)
    (r : bool) :
  hasAncestor (S fuel) a p q = Some r ->
  (parentAlbumUUID a = "" /\ r = false)
  \/ (parentAlbumUUID a <> "" /\ uuid p = parentAlbumUUID a /\ r = true)
  \/ (parentAlbumUUID a <> "" /\ uuid p <> parentAlbumUUID a
      /\ findByUUID (parentAlbumUUID a) q = None /\ r = false)
  \/ (parentAlbumUUID a <> "" /\ uuid p <> parentAlbumUUID a
      /\ exists b, findByUUID (parentAlbumUUID a) q = Some b
                   /\ hasAncestor fuel b p q = Some r).
Proof.
  intros H.
  destruct (String.eqb_spec (parentAlbumUUID a) "") as [E|Hne].
  - left. rewrite hasAncestor_root in H by exact E.
    split; [exact E | congruence].
  - right. destruct (String.eqb_spec (uuid p) (parentAlbumUUID a)) as [Ep|Hp].
    + left. rewrite hasAncestor_parent in H by assumption.
      repeat split; [exact Hne | exact Ep | congruence].
    + right. destruct (findByUUID (parentAlbumUUID a) q) as [b|] eqn:Hfind.
      * right. rewrite (hasAncestor_step fuel a p b q Hne Hp Hfind) in H.
        repeat split; [exact Hne | exact Hp |]. now exists b.
      * left. rewrite hasAncestor_gap in H by assumption.
        repeat split; [exact Hne | exact Hp | congruence].
Qed.

Lemma distanceToRoot_lt_fuel (fuel : nat) (a : Album) (q : list Album)
    (n : nat) :
  distanceToRoot fuel a q = Some (Return n) -> n < fuel.
Proof.
  revert a n. induction fuel as [|fuel IH]; intros a n H; [discriminate|].
  apply distanceToRoot_S_inv in H
    as [[_ E]|[(_ & _ & E)|(_ & p & r' & _ & Hp & E)]].
  - injection E as ->. lia.
  - discriminate.
  - destruct r' as [n'|e]; [|discriminate]. injection E as ->.
    apply IH in Hp. lia.
Qed.

(** The albums passed on the way to the root: as many as the distance,
    all of the queue, no two the same. *)
Lemma distanceToRoot_chain (fuel : nat) (a : Album) (q : list Album)
    (n : nat) :
  distanceToRoot fuel a q = Some (Return n) ->
  exists l : list Album,
    length l = n /\ NoDup l
    /\ forall p, In p l ->
         In p q /\ exists m, m < n /\ distanceToRoot_returns p q (Return m).
Proof.
  revert a n. induction fuel as [|fuel IH]; intros a n H; [discriminate|].
  apply distanceToRoot_S_inv in H
    as [[_ E]|[(_ & _ & E)|(_ & p & r' & Hfind & Hp & E)]].
  - injection E as ->. exists []. split; [reflexivity|].
    split; [apply NoDup_nil_2|]. intros p [].
  - discriminate.
  - destruct r' as [n'|e]; [|discriminate]. injection E as ->.
    destruct (IH p n' Hp) as (l & Hlen & Hnd & Hl).
    exists (p :: l). split; [simpl; lia|]. split.
    + apply NoDup_cons. split; [|exact Hnd]. intros Hin.
      apply list_elem_of_In in Hin.
      destruct (Hl p Hin) as (_ & m & Hm & Hret).
      assert (Return m = Return n')
        by (apply (distanceToRoot_returns_unique p q); [exact Hret|];
            now exists fuel).
      assert (m = n') by congruence. lia.
    + intros x [<-|Hx].
      * split; [now apply findByUUID_Some in Hfind|].
        exists n'. split; [lia|]. now exists fuel.
      * destruct (Hl x Hx) as (Hq & m & Hm & Hret).
        split; [exact Hq|]. exists m. split; [lia | exact Hret].
Qed.

(** X8. A distance that [distanceToRoot] returns is at most the number
    of albums in the queue. *)
Theorem distanceToRoot_le_length (a : Album) (q : list Album) (n : nat) :
  distanceToRoot_returns a q (Return n) -> n <= length q.
Proof.
  intros [fuel H].
  destruct (distanceToRoot_chain fuel a q n H) as (l & <- & Hnd & Hl).
  apply submseteq_length, NoDup_submseteq; [exact Hnd|].
  intros p Hp. apply list_elem_of_In. apply list_elem_of_In in Hp.
  now destruct (Hl p Hp).
Qed.

Lemma distanceToRoot_le_length_witness :
  let folder := newAlbum "f" FOLDER "Trips" "" in
  let child := newAlbum "c" ALBUM "Sea" "f" in
  let q := [folder; child] in
  distanceToRoot_returns child q (Return 1) /\ 1 <= length q.
Proof.
  intros folder child q.
  assert (H : distanceToRoot_returns child q (Return 1))
    by (exists 2; reflexivity).
  split; [exact H|].
  exact (distanceToRoot_le_length child q 1 H).
Defined.

(** X9. The distance is 0 exactly for an album with an empty parent
    uuid. *)
Theorem distanceToRoot_zero_iff (a : Album) (q : list Album) :
  distanceToRoot_returns a q (Return 0) <-> parentAlbumUUID a = "".
Proof.
  split.
  - intros [[|fuel] H]; [discriminate|].
    apply distanceToRoot_S_inv in H
      as [[E _]|[(_ & _ & E)|(_ & p & r' & _ & _ & E)]].
    + exact E.
    + discriminate.
    + destruct r' as [n'|e]; [|discriminate]. injection E as E. lia.
  - intros E. exists 1. now apply distanceToRoot_root.
Qed.





Lemma hasAncestor_true_parent_of (fuel : nat) (a p : Album)
    (q : list Album) :
  hasAncestor fuel a p q = Some true ->
  uuid p <> "" /\ exists b, In b (a :: q) /\ parentAlbumUUID b = uuid p.
Proof.
  revert a. induction fuel as [|fuel IH]; intros a H; [discriminate|].
  apply hasAncestor_S_inv in H
    as [[_ E]|[(Hne & Ep & _)|[(_ & _ & _ & E)|(Hne & Hp & b & Hfind & Hb)]]];
    try discriminate.
  - split; [congruence|]. exists a. split; [now left | now symmetry].
  - destruct (IH b Hb) as (Hu & c & [<-|Hc] & Ec).
    + split; [exact Hu|]. exists b.
      split; [right; now apply findByUUID_Some in Hfind | exact Ec].
    + split; [exact Hu|]. exists c. split; [now right | exact Ec].
Qed.

(** X11. [hasAncestor] reports only uuids that are the parent uuid of
    the album or of an album of the queue, and never the empty uuid: the
    root album, whose uuid is empty, is never reported as an ancestor. *)
Theorem hasAncestor_true_sound (a p : Album) (q : list Album) :
  hasAncestor_returns a p q true ->
  uuid p <> ""
  /\ (exists b, In b (a :: q) /\ parentAlbumUUID b = uuid p)
  /\ (forall c fuel, hasAncestor fuel c getRootAlbum q <> Some true).
Proof.
  intros [fuel H].
  destruct (hasAncestor_true_parent_of fuel a p q H) as [Hu Hb].
  split; [exact Hu|]. split; [exact Hb|].
  intros c fuel' Hc.
  now destruct (hasAncestor_true_parent_of fuel' c getRootAlbum q Hc).
Qed.

Lemma hasAncestor_true_sound_witness :
  let folder := newAlbum "f" FOLDER "Trips" "" in
  let child := newAlbum "c" ALBUM "Sea" "f" in
  let q := [folder; child] in
  hasAncestor_returns child folder q true
  /\ uuid folder <> ""
  /\ forall c fuel, hasAncestor fuel c getRootAlbum q <> Some true.
Proof.
  intros folder child q.
  assert (H : hasAncestor_returns child folder q true)
    by (exists 1; reflexivity).
  destruct (hasAncestor_true_sound child folder q H) as (Hu & _ & Hroot).
  split; [exact H|]. split; [exact Hu | exact Hroot].
Defined.

Lemma hasAncestor_trans_fuel (fuel : nat) (a b b' c : Album)
    (q : list Album) :
  hasAncestor fuel a b q = Some true ->
  findByUUID (uuid b) q = Some b' ->
  hasAncestor_returns b' c q true ->
  hasAncestor_returns a c q true.
Proof.
  revert a. induction fuel as [|fuel IH]; intros a H Hb' Hc; [discriminate|].
  apply hasAncestor_S_inv in H
    as [[_ E]|[(Hne & Ep & _)|[(_ & _ & _ & E)|(Hne & Hp & x & Hfind & Hx)]]];
    try discriminate.
  - destruct (String.eqb_spec (uuid c) (parentAlbumUUID a)) as [Ec|Hcne].
    + exists 1. now apply hasAncestor_parent.
    + destruct Hc as [g Hg]. exists (S g).
      rewrite (hasAncestor_step g a c b' q Hne Hcne); [exact Hg|].
      now rewrite <- Ep.
  - destruct (String.eqb_spec (uuid c) (parentAlbumUUID a)) as [Ec|Hcne].
    + exists 1. now apply hasAncestor_parent.
    + destruct (IH x Hx Hb' Hc) as [g Hg]. exists (S g).
      now rewrite (hasAncestor_step g a c x q Hne Hcne Hfind).
Qed.

(** X12. [hasAncestor] is transitive along the queue: if [b] is an
    ancestor of [a] and [c] is an ancestor of the album that the queue
    holds for the uuid of [b], then [c] is an ancestor of [a]. *)
Theorem hasAncestor_trans (a b b' c : Album) (q : list Album) :
  hasAncestor_returns a b q true ->
  findByUUID (uuid b) q = Some b' ->
  hasAncestor_returns b' c q true ->
  hasAncestor_returns a c q true.
Proof.
  intros [fuel H] Hb' Hc.
  exact (hasAncestor_trans_fuel fuel a b b' c q H Hb' Hc).
Qed.

Lemma hasAncestor_trans_witness :
  let top := newAlbum "t" FOLDER "Top" "" in
  let mid := newAlbum "m" FOLDER "Mid" "t" in
  let leaf := newAlbum "l" ALBUM "Leaf" "m" in
  let q := [leaf; mid; top] in
  hasAncestor_returns leaf mid q true
  /\ findByUUID (uuid mid) q = Some mid
  /\ hasAncestor_returns mid top q true
  /\ hasAncestor_returns leaf top q true.
Proof.
  intros top mid leaf q.
  assert (H1 : hasAncestor_returns leaf mid q true) by (exists 1; reflexivity).
  assert (H2 : findByUUID (uuid mid) q = Some mid) by reflexivity.
  assert (H3 : hasAncestor_returns mid top q true) by (exists 1; reflexivity).
  repeat (split; [assumption|]).
  exact (hasAncestor_trans leaf mid mid top q H1 H2 H3).
Defined.

Lemma distanceToRoot_Throw_gap (fuel : nat) (a : Album) (q : list Album)
    (e : LIBRARY_ERR) :
  distanceToRoot fuel a q = Some (Throw e) ->
  exists b, In b (a :: q) /\ parentAlbumUUID b <> ""
            /\ forall c, In c q -> uuid c <> parentAlbumUUID b.
Proof.
  revert a. induction fuel as [|fuel IH]; intros a H; [discriminate|].
  apply distanceToRoot_S_inv in H
    as [[_ E]|[(Hne & Hnone & _)|(Hne & p & r' & Hfind & Hp & E)]].
  - discriminate.
  - exists a. split; [now left|]. split; [exact Hne|].
    now apply findByUUID_None.
  - destruct r' as [n'|e']; [discriminate|]. injection E as ->.
    destruct (IH p Hp) as (b & [<-|Hb] & Hb').
    + exists p. split; [|exact Hb'].
      right. now apply findByUUID_Some in Hfind.
    + exists b. split; [now right | exact Hb'].
Qed.

(** X13. [distanceToRoot] throws only at a gap: when it throws, the
    album or an album of the queue has a non-empty parent uuid that no
    album of the queue carries. *)
Theorem distanceToRoot_throws_at_gap (a : Album) (q : list Album)
    (e : LIBRARY_ERR) :
  distanceToRoot_returns a q (Throw e) ->
  e = NO_DISTANCE_TO_ROOT
  /\ exists b, In b (a :: q) /\ parentAlbumUUID b <> ""
               /\ forall c, In c q -> uuid c <> parentAlbumUUID b.
Proof.
  intros [fuel H]. split; [now destruct e|].
  exact (distanceToRoot_Throw_gap fuel a q e H).
Qed.

Lemma distanceToRoot_throws_at_gap_witness :
  let stray := newAlbum "s" ALBUM "Stray" "zz" in
  let leaf := newAlbum "l" ALBUM "Leaf" "s" in
  let q := [stray; leaf] in
  distanceToRoot_returns leaf q (Throw NO_DISTANCE_TO_ROOT)
  /\ exists b, In b (leaf :: q) /\ parentAlbumUUID b <> ""
               /\ forall c, In c q -> uuid c <> parentAlbumUUID b.
Proof.
  intros stray leaf q.
  assert (H : distanceToRoot_returns leaf q (Throw NO_DISTANCE_TO_ROOT))
    by (exists 2; reflexivity).
  split; [exact H|].
  exact (proj2 (distanceToRoot_throws_at_gap leaf q _ H)).
Defined.

(** X14. In a queue without gap and without cycle the distance is a
    number: [distanceToRoot] returns, does not throw, and the distance
    is at most the depth of the album. *)
Theorem distanceToRoot_complete_hierarchy (depth : Album -> nat)
    (q : list Album) (a : Album) :
  noGap q a -> depthDecreases depth q a ->
  exists n, distanceToRoot (S (depth a)) a q = Some (Return n)
            /\ n <= depth a.
Proof.
  intros Hgap Hdec.
  destruct (distanceToRoot_terminates depth q a Hdec (depth a) a)
    as [[n|e] Hr]; [now left | lia | |].
  - exists n. split; [exact Hr|].
    apply distanceToRoot_lt_fuel in Hr. lia.
  - exfalso.
    destruct (distanceToRoot_Throw_gap _ a q e Hr) as (b & Hb & Hne & Hnone).
    destruct (Hgap b Hb) as [E|(c & Hc & Ec)]; [contradiction|].
    exact (Hnone c Hc Ec).
Qed.

Lemma distanceToRoot_complete_hierarchy_witness :
  let folder := newAlbum "f" FOLDER "Trips" "" in
  let child := newAlbum "c" ALBUM "Sea" "f" in
  let q := [folder; child] in
  let depth := fun b : Album =>
                 if strictEq (parentAlbumUUID b) "" then 0 else 1 in
  noGap q child /\ depthDecreases depth q child
  /\ exists n, distanceToRoot 2 child q = Some (Return n) /\ n <= 1.
Proof.
  intros folder child q depth.
  assert (Hgap : noGap q child).
  { intros b [<-|[<-|[<-|[]]]].
    - right. exists folder. split; [now left | reflexivity].
    - left. reflexivity.
    - right. exists folder. split; [now left | reflexivity]. }
  assert (Hdec : depthDecreases depth q child).
  { intros b p [<-|[<-|[<-|[]]]] Hp; vm_compute in Hp;
      try discriminate; injection Hp as <-; vm_compute; lia. }
  split; [exact Hgap|]. split; [exact Hdec|].
  exact (distanceToRoot_complete_hierarchy depth q child Hgap Hdec).
Defined.

(** The first album that [find] returns stands before every other album
    with the uuid. *)
Lemma findByUUID_first (id : string) (q : list Album) (p : Album) :
  findByUUID id q = Some p ->
  exists j, q !! j = Some p
            /\ forall k c, q !! k = Some c -> uuid c = id -> j <= k.
Proof.
  unfold findByUUID, find, getUUID.
  induction q as [|x q IH]; intros H; [discriminate|].
  cbn [List.find] in H.
  destruct (strictEq (uuid x) id) eqn:E.
  - injection H as ->. exists 0. split; [reflexivity|]. intros; lia.
  - destruct (IH H) as (j & Hj & Hmin). exists (S j).
    split; [exact Hj|].
    intros [|k] c Hk Hc.
    + injection Hk as ->. apply strictEq_false_iff in E. contradiction.
    + apply le_n_S. exact (Hmin k c Hk Hc).
Qed.

Lemma parentsFirst_distance (q : list Album) :
  parentsFirst q ->
  forall i b, q !! i = Some b ->
    exists n, n <= i /\ distanceToRoot (S i) b q = Some (Return n).
Proof.
  intros Hpf i. induction i as [i IH] using lt_wf_ind. intros b Hb.
  destruct (Hpf i b Hb) as [E|(j & c & Hj & Hc & Ec)].
  - exists 0. split; [lia|]. now apply distanceToRoot_root.
  - destruct (String.eqb_spec (parentAlbumUUID b) "") as [E|Hne].
    + exists 0. split; [lia|]. now apply distanceToRoot_root.
    + destruct (findByUUID_is_Some (parentAlbumUUID b) q) as [p Hp].
      { exists c. split; [|exact Ec].
        apply list_elem_of_In, list_elem_of_lookup. now exists j. }
      destruct (findByUUID_first _ _ _ Hp) as (j' & Hj' & Hmin).
      assert (j' <= j) by exact (Hmin j c Hc Ec).
      destruct (IH j' ltac:(lia) p Hj') as (n' & Hn' & Hd).
      exists (n' + 1). split; [lia|].
      rewrite (distanceToRoot_step i b p q Hne Hp).
      rewrite (distanceToRoot_fuel_mono (S j') i p q _ Hd) by lia.
      reflexivity.
Qed.

(** X15. In a queue that lists every album after its parent, every
    album has a distance: [distanceToRoot] returns a number that is at
    most the place of the album in the queue. *)
Theorem distanceToRoot_parentsFirst (q : list Album) (i : nat) (b : Album) :
  parentsFirst q -> q !! i = Some b ->
  exists n, n <= i /\ distanceToRoot_returns b q (Return n).
Proof.
  intros Hpf Hb.
  destruct (parentsFirst_distance q Hpf i b Hb) as (n & Hn & Hd).
  exists n. split; [exact Hn | now exists (S i)].
Qed.

Lemma distanceToRoot_parentsFirst_witness :
  let top := newAlbum "t" FOLDER "Top" "" in
  let mid := newAlbum "m" FOLDER "Mid" "t" in
  let leaf := newAlbum "l" ALBUM "Leaf" "m" in
  let q := [top; mid; leaf] in
  parentsFirst q /\ q !! 2 = Some leaf
  /\ exists n, n <= 2 /\ distanceToRoot_returns leaf q (Return n).
Proof.
  intros top mid leaf q.
  assert (Hpf : parentsFirst q).
  { intros [|[|[|i]]] b Hb; [| | |discriminate]; injection Hb as <-.
    - left. reflexivity.
    - right. exists 0, top. split; [lia|]. split; reflexivity.
    - right. exists 1, mid. split; [lia|]. split; reflexivity. }
  assert (Hb : q !! 2 = Some leaf) by reflexivity.
  split; [exact Hpf|]. split; [exact Hb|].
  exact (distanceToRoot_parentsFirst q 2 leaf Hpf Hb).
Defined.

Lemma walks_same_fuel (fuel : nat) (a p : Album) (q : list Album) :
  (forall r, distanceToRoot fuel a q = Some r ->
             exists b, hasAncestor fuel a p q = Some b)
  /\ (hasAncestor fuel a p q = Some false ->
      exists r, distanceToRoot fuel a q = Some r).
Proof.
  revert a. induction fuel as [|fuel IH]; intros a.
  { split; [intros r H | intros H]; discriminate. }
  split.
  - intros r H.
    apply distanceToRoot_S_inv in H
      as [[E _]|[(Hne & Hnone & _)|(Hne & x & r' & Hfind & Hx & _)]].
    + eexists. now apply hasAncestor_root.
    + destruct (String.eqb_spec (uuid p) (parentAlbumUUID a)) as [Ep|Hp].
      * eexists. now apply hasAncestor_parent.
      * eexists. now apply hasAncestor_gap.
    + destruct (String.eqb_spec (uuid p) (parentAlbumUUID a)) as [Ep|Hp].
      * eexists. now apply hasAncestor_parent.
      * rewrite (hasAncestor_step fuel a p x q Hne Hp Hfind).
        exact (proj1 (IH x) r' Hx).
  - intros H.
    apply hasAncestor_S_inv in H
      as [[E _]|[(_ & _ & E)|[(Hne & _ & Hnone & _)|(Hne & _ & x & Hfind & Hx)]]].
    + eexists. now apply distanceToRoot_root.
    + discriminate.
    + eexists. now apply distanceToRoot_gap.
    + destruct (proj2 (IH x) Hx) as [r' Hr'].
      rewrite (distanceToRoot_step fuel a x q Hne Hfind), Hr'.
      destruct r'; eexists; reflexivity.
Qed.

(** X16. The two walks finish together: whenever [distanceToRoot]
    finishes on an album (with a distance or with the error), then
    [hasAncestor] finishes on it for every candidate, and whenever
    [hasAncestor] answers false, [distanceToRoot] finishes. *)
Theorem walks_finish_together (a p : Album) (q : list Album) :
  ((exists r, distanceToRoot_returns a q r) ->
   exists b, hasAncestor_returns a p q b)
  /\ (hasAncestor_returns a p q false ->
      exists r, distanceToRoot_returns a q r).
Proof.
  split.
  - intros (r & fuel & H).
    destruct (proj1 (walks_same_fuel fuel a p q) r H) as [b Hb].
    exists b. now exists fuel.
  - intros [fuel H].
    destruct (proj2 (walks_same_fuel fuel a p q) H) as [r Hr].
    exists r. now exists fuel.
Qed.

Lemma walks_finish_together_witness :
  let stray := newAlbum "s" ALBUM "Stray" "zz" in
  let leaf := newAlbum "l" ALBUM "Leaf" "s" in
  let other := newAlbum "o" FOLDER "Other" "" in
  let q := [stray; leaf] in
  hasAncestor_returns leaf other q false
  /\ (exists r, distanceToRoot_returns leaf q r)
  /\ (exists b, hasAncestor_returns leaf other q b).
Proof.
  intros stray leaf other q.
  assert (H : hasAncestor_returns leaf other q false)
    by (exists 2; reflexivity).
  pose proof (proj2 (walks_finish_together leaf other q) H) as Hd.
  split; [exact H|]. split; [exact Hd|].
  exact (proj1 (walks_finish_together leaf other q) Hd).
Defined.

Lemma distanceToRoot_zero_iff_witness :
  let folder := newAlbum "f" FOLDER "Trips" "" in
  let child := newAlbum "c" ALBUM "Sea" "f" in
  parentAlbumUUID folder = ""
  /\ distanceToRoot_returns folder [folder; child] (Return 0)
  /\ ~ distanceToRoot_returns child [folder; child] (Return 0).
Proof.
  intros folder child.
  assert (E : parentAlbumUUID folder = "") by reflexivity.
  split; [exact E|]. split.
  - exact (proj2 (distanceToRoot_zero_iff folder [folder; child]) E).
  - intros H.
    pose proof (proj1 (distanceToRoot_zero_iff child [folder; child]) H).
    discriminate.
Defined.

End WalkFacts.

(* ================================================================== *)
(** ** Albums from backend records; the logger guard *)
(* ================================================================== *)

Section SourceFacts.
Import JS PhotosLibrary AlbumSource.

(** X17. [fromCPL] fills in what a record lacks: the album always has
    an assets mapping, the empty one for a record without; its parent
    uuid is empty exactly when the record has no [parentId] or an empty
    one, and then the album is at distance 0 and has no ancestor in any
    queue. *)
Theorem fromCPL_missing_fields (base64ToUtf8 : string -> string)
    (c : CPLAlbum) (p : Album) (q : list Album) :
  assets (fromCPL base64ToUtf8 c) = present (orElse (cplAssets c) [])
  /\ (parentAlbumUUID (fromCPL base64ToUtf8 c) = "" <->
      parentId c = null \/ parentId c = undefined \/ parentId c = present "")
  /\ (parentAlbumUUID (fromCPL base64ToUtf8 c) = "" ->
      distanceToRoot_returns (fromCPL base64ToUtf8 c) q (Return 0)
      /\ forall fuel,
           hasAncestor (S fuel) (fromCPL base64ToUtf8 c) p q = Some false).
Proof.
  split; [reflexivity|]. split.
  - unfold fromCPL. cbn [withAssets newAlbum parentAlbumUUID].
    unfold stringOrElse, strictEq.
    destruct (parentId c) as [| |v]; [tauto | tauto |].
    destruct (String.eqb_spec v "") as [->|Hv]; [tauto|].
    split; [contradiction|].
    intros [H|[H|H]]; try discriminate. injection H as ->. contradiction.
  - intros E. split.
    + exists 1. now apply distanceToRoot_root.
    + intros fuel. now apply hasAncestor_root.
Qed.

Lemma fromCPL_missing_fields_witness :
  let c := {| recordName := "r1"; cplAlbumType := ALBUM;
              albumNameEnc := "VHJpcHM="; parentId := undefined;
              cplAssets := undefined |} in
  let a := fromCPL (fun enc => enc) c in
  parentAlbumUUID a = ""
  /\ assets a = present []
  /\ distanceToRoot_returns a [getRootAlbum] (Return 0).
Proof.
  intros c a.
  destruct (fromCPL_missing_fields (fun enc => enc) c getRootAlbum
              [getRootAlbum]) as (Ha & Hp & Hd).
  assert (E : parentAlbumUUID a = "") by (apply (proj2 Hp); tauto).
  split; [exact E|]. split; [exact Ha|]. exact (proj1 (Hd E)).
Defined.

End SourceFacts.

Section LoggerFacts.
Import JS Logger.

Context {Env Error : Type}.
Variable pathFormat : string -> string -> string.
Variable pathDirname : string -> string.
Variable existsSync : string -> Env -> bool.
Variable mkdirSync truncateSync : string -> Env -> Env * option Error.
Variable setMethodFactory : OptionValues -> Env -> Env.
Variable setLevel warn : string -> Env -> Env * option Error.

Let setup := setupLogger Env Error pathFormat pathDirname existsSync
               mkdirSync truncateSync setMethodFactory setLevel warn.

Lemma andThen_logFile (file : string) (step : Env * option Error)
    (rest : Env -> LoggerState Env * option Error) :
  (forall e, logFile Env (fst (rest e)) = present file) ->
  logFile Env (fst (andThen Env Error file step rest)) = present file.
Proof.
  intros H. unfold andThen. destruct step as [e [err|]]; [reflexivity|].
  apply H.
Qed.

Lemma setupLogger_sets_logFile (options : OptionValues)
    (s : LoggerState Env) :
  truthyString (logFile Env s) = false ->
  logFile Env (fst (setup options s))
  = present (pathFormat (dataDir options) LOG_FILE_NAME).
Proof.
  intros H. unfold setup, setupLogger. rewrite H.
  repeat (apply andThen_logFile; intros ?). reflexivity.
Qed.

(** X18. The logger is set up once: after a first [setupLogger],
    whether it returned or threw on the way, every later call, with
    whatever options, returns at once and leaves the log file variable
    and the world as they are, the log file is not truncated again. *)
Theorem setupLogger_once (first later : OptionValues)
    (s : LoggerState Env) :
  (forall dir, pathFormat dir LOG_FILE_NAME <> "") ->
  setup later (fst (setup first s)) = (fst (setup first s), None).
Proof.
  intros Hformat.
  assert (Hset : truthyString (logFile Env (fst (setup first s))) = true).
  { destruct (truthyString (logFile Env s)) eqn:E.
    - unfold setup, setupLogger. now rewrite E.
    - rewrite (setupLogger_sets_logFile first s E). cbn [truthyString].
      apply negb_true_iff. apply String.eqb_neq. apply Hformat. }
  unfold setup at 1. unfold setupLogger. fold setup. now rewrite Hset.
Qed.

End LoggerFacts.

Section LoggerExample.
Import JS Logger.

Lemma setupLogger_once_witness :
  let first := {| dataDir := "/data"; logToCli := false; silent := false;
                  logLevel := "info" |} in
  let later := {| dataDir := "/other"; logToCli := true; silent := false;
                  logLevel := "trace" |} in
  let s := {| logFile := undefined; env := [] |} in
  (forall dir, examplePathFormat dir LOG_FILE_NAME <> "")
  /\ fst (exampleSetup first s)
     = {| logFile := present "/data/.icloud-photos-sync.log";
          env := ["/data/.icloud-photos-sync.log"] |}
  /\ exampleSetup later (fst (exampleSetup first s))
     = (fst (exampleSetup first s), None).
Proof.
  intros first later s.
  assert (Hformat : forall dir, examplePathFormat dir LOG_FILE_NAME <> "")
    by (intros [|c dir]; discriminate).
  split; [exact Hformat|]. split; [reflexivity|].
  exact (setupLogger_once examplePathFormat (fun _ => "/data")
           (fun _ _ => true) (fun _ e => (e, None)) (fun p e => (p :: e, None))
           (fun _ e => e) (fun _ e => (e, None)) (fun _ e => (e, None))
           first later s Hformat).
Defined.

End LoggerExample.
